(** * bring::RingBuffer - a shallow embedding of [include/bring/ring_buffer.hpp]

    The single-producer/single-consumer ring buffer is modelled sequentially:
    the two atomic cursors are plain [size_t] values (every [load]/[store] is
    a read or write of the field; memory orders have no sequential meaning),
    the heap array behind [_storage] is a list of slots, and the lifetime of
    the [T] object inside a slot is explicit ([None]: raw bytes, no live
    object; [Some v]: a live object of value [v]).  Undefined behaviour of the
    C++ code (dereferencing a null [_storage], indexing outside the array,
    reading or destroying an object that is not alive) is an explicit outcome,
    so that "the operation is total" is a statement one can prove. *)

From Stdlib Require Import ZArith Lia.
From Stdlib.Strings Require Import Byte.
From stdpp Require Import base option list numbers.

#[local] Open Scope Z_scope.

Module bring.

(** ** Outcomes of running C++ code *)

Inductive fault : Type :=
| NullStorage                (* [_storage[idx]] with [_storage == nullptr] *)
| OutOfBounds (idx : Z)      (* [_storage[idx]] outside the allocated array *)
| NoLiveObject (idx : Z).    (* [*element_ptr] / [element_ptr->~T()] on raw bytes *)

Inductive outcome (A : Type) : Type :=
| Ok (a : A)
| Undefined (why : fault)
| OutOfFuel.

Arguments Ok {A} a.
Arguments Undefined {A} why.
Arguments OutOfFuel {A}.

(** [size_t] is a 64-bit unsigned integer; arithmetic on it wraps. *)
Definition size_t_wrap (x : Z) : Z := x mod 2 ^ 64.

Section RingBuffer.

(** [template <RingElement T, size_t Capacity>].  [T] is a type of plain
    values: moving a value out of a slot yields the value, and constructing
    or moving a [T] cannot fail. *)
Context {T : Type}.
Variable Capacity : Z.

(** [emplace(Args &&...args)] builds the element with [T(args...)]. *)
Context {Args : Type}.
Variable construct : Args -> T.

(** *** Element lifetimes *)

(** Destructor calls made by the buffer's own code: [element_ptr->~T()] on
    the object living in slot [idx], or the destruction of a [T] held by a
    [std::optional<T>] outside the slots: the local [result] of [try_pop],
    destroyed when the function returns, and the temporary that
    [while (try_pop())] tests and drops. *)
Inductive event : Type :=
| SlotDtor (idx : Z) (v : T)
| TempDtor (v : T).

(** The calls of [element_ptr->~T()] in a log: slot and value destroyed. *)
Definition slot_dtors (log : list event) : list (Z * T) :=
  omap (fun e => match e with
                 | SlotDtor i v => Some (i, v)
                 | TempDtor _ => None
                 end) log.

(** *** A state-and-error monad: the log of destructor calls is threaded,
    undefined behaviour aborts. *)
Definition M (A : Type) : Type := list event -> outcome (A * list event).

Definition ret {A} (a : A) : M A := fun log => Ok (a, log).

Definition bind {A B} (m : M A) (k : A -> M B) : M B :=
  fun log =>
    match m log with
    | Ok (a, log') => k a log'
    | Undefined why => Undefined why
    | OutOfFuel => OutOfFuel
    end.

Definition undefined {A} (why : fault) : M A := fun _ => Undefined why.
Definition out_of_fuel {A} : M A := fun _ => OutOfFuel.
Definition emit (e : event) : M unit := fun log => Ok (tt, log ++ [e]).

Notation "'let*' x ':=' m 'in' k" := (bind m (fun x => k))
  (at level 10, x name, m at level 100, k at level 200, only parsing).
Notation "'let*' ' pat ':=' m 'in' k" :=
  (bind m (fun x => match x with pat => k end))
  (at level 10, pat pattern, m at level 100, k at level 200, only parsing).

(** *** The class *)

(** [struct Slot { alignas(T) std::array<std::byte, sizeof(T)> _data; }]:
    raw storage for one [T], with the object living in it, if any. *)
Abbreviation Slot := (option T).

(** [_storage] is a [std::unique_ptr<Slot[]>]: [None] is the null pointer. *)
Record RingBuffer : Type := mkRingBuffer {
  _head : Z;
  _tail : Z;
  _storage : option (list Slot)
}.

Definition store_head (v : Z) (rb : RingBuffer) : RingBuffer :=
  {| _head := v; _tail := _tail rb; _storage := _storage rb |}.

Definition store_tail (v : Z) (rb : RingBuffer) : RingBuffer :=
  {| _head := _head rb; _tail := v; _storage := _storage rb |}.

(** [T *get_ptr(size_t idx)]: the address of slot [idx], as its index.
    Forming [_storage[idx]] is undefined on a null or too short array. *)
Definition get_ptr (idx : Z) (rb : RingBuffer) : M Z :=
  match _storage rb with
  | None => undefined NullStorage
  | Some slots =>
      if bool_decide (0 <= idx < Z.of_nat (length slots))
      then ret idx
      else undefined (OutOfBounds idx)
  end.

(** Writing slot [ptr] of the array; [ptr] comes from [get_ptr], which has
    checked it against the array. *)
Definition set_slot (ptr : Z) (s : Slot) (rb : RingBuffer) : RingBuffer :=
  {| _head := _head rb; _tail := _tail rb;
     _storage := (fun slots => <[Z.to_nat ptr := s]> slots) <$> _storage rb |}.

(** The object living at slot [i], if the slot exists and holds one. *)
Definition slot_at (rb : RingBuffer) (i : Z) : option T :=
  match _storage rb with
  | None => None
  | Some slots => if bool_decide (0 <= i) then mjoin (slots !! Z.to_nat i) else None
  end.

(** [new (ptr) T(v)]: starts the lifetime of an object of value [v]. *)
Definition placement_new (ptr : Z) (v : T) (rb : RingBuffer) : RingBuffer :=
  set_slot ptr (Some v) rb.

(** [std::move] of [*element_ptr]: the value of the live object at [ptr]. *)
Definition move_from (ptr : Z) (rb : RingBuffer) : M T :=
  match slot_at rb ptr with
  | Some v => ret v
  | None => undefined (NoLiveObject ptr)
  end.

(** [element_ptr->~T()]: ends the lifetime of the object at [ptr]. *)
Definition destroy_at (ptr : Z) (rb : RingBuffer) : M RingBuffer :=
  match slot_at rb ptr with
  | Some v => let* _ := emit (SlotDtor ptr v) in ret (set_slot ptr None rb)
  | None => undefined (NoLiveObject ptr)
  end.

(** [RingBuffer() : _storage(std::make_unique<Slot[]>(Capacity))], with the
    member initialisers [_head{0}], [_tail{0}]. *)
Definition RingBuffer_ctor : RingBuffer :=
  {| _head := 0; _tail := 0;
     _storage := Some (replicate (Z.to_nat Capacity) None) |}.

(** [bool is_full()] *)
Definition is_full (rb : RingBuffer) : bool :=
  let current_head := _head rb in
  let next_head := Z.land (size_t_wrap (current_head + 1)) (Capacity - 1) in
  next_head =? _tail rb.

(** [bool is_empty()] *)
Definition is_empty (rb : RingBuffer) : bool :=
  let current_tail := _tail rb in
  current_tail =? _head rb.

(** [bool try_push(U &&item)], at [U = T]. *)
Definition try_push (item : T) (rb : RingBuffer) : M (bool * RingBuffer) :=
  let current_head := _head rb in
  let next_head := Z.land (size_t_wrap (current_head + 1)) (Capacity - 1) in
  if next_head =? _tail rb then ret (false, rb)
  else
    let* ptr := get_ptr current_head rb in
    let rb := placement_new ptr item rb in
    ret (true, store_head next_head rb).

(** [bool try_pop_ip(T &out)]: returns the flag and the new value of [out]. *)
Definition try_pop_ip (out : T) (rb : RingBuffer) : M (bool * T * RingBuffer) :=
  let current_tail := _tail rb in
  if current_tail =? _head rb then ret (false, out, rb)
  else
    let* element_ptr := get_ptr current_tail rb in
    let* out := move_from element_ptr rb in
    let* rb := destroy_at element_ptr rb in
    ret (true, out,
         store_tail (Z.land (size_t_wrap (current_tail + 1)) (Capacity - 1)) rb).

(** [~optional<T>()]: destroys the [T] it holds, if it holds one. *)
Definition destroy_optional (o : option T) : M unit :=
  match o with
  | Some v => emit (TempDtor v)
  | None => ret tt
  end.

(** [std::optional<T> try_pop()].  [return result;] moves the local [result]
    into the returned object and then destroys the local: the function has
    a second [return], of [std::nullopt], and the copy is not elided. *)
Definition try_pop (rb : RingBuffer) : M (option T * RingBuffer) :=
  let current_tail := _tail rb in
  if current_tail =? _head rb then ret (None, rb)
  else
    let* element_ptr := get_ptr current_tail rb in
    let* result := (let* v := move_from element_ptr rb in ret (Some v)) in
    let* rb := destroy_at element_ptr rb in
    let rb :=
      store_tail (Z.land (size_t_wrap (current_tail + 1)) (Capacity - 1)) rb in
    let* _ := destroy_optional result in
    ret (result, rb).

(** [bool try_consume(Func &&processor)].  The callback acts on the caller's
    own state [S] (what a capturing lambda closes over); it returns the flag
    and that state after the call. *)
Definition try_consume {S : Type} (processor : T -> S -> S) (env : S)
    (rb : RingBuffer) : M (bool * S * RingBuffer) :=
  let current_tail := _tail rb in
  if current_tail =? _head rb then ret (false, env, rb)
  else
    let* element_ptr := get_ptr current_tail rb in
    let* env := (let* v := move_from element_ptr rb in ret (processor v env)) in
    let* rb := destroy_at element_ptr rb in
    ret (true, env,
         store_tail (Z.land (size_t_wrap (current_tail + 1)) (Capacity - 1)) rb).

(** [bool emplace(Args &&...args)] *)
Definition emplace (args : Args) (rb : RingBuffer) : M (bool * RingBuffer) :=
  let current_head := _head rb in
  let next_head := Z.land (size_t_wrap (current_head + 1)) (Capacity - 1) in
  if next_head =? _tail rb then ret (false, rb)
  else
    let* ptr := get_ptr current_head rb in
    let rb := placement_new ptr (construct args) rb in
    ret (true, store_head next_head rb).

(** [~RingBuffer()]: [while (try_consume([](T &&) {})) {}].  The loop gets
    [fuel] iterations; it returns the buffer as the loop leaves it, just
    before its members are released. *)
Fixpoint dtor_loop (fuel : nat) (rb : RingBuffer) : M RingBuffer :=
  match fuel with
  | O => out_of_fuel
  | S fuel =>
      let* '(more, _, rb) := try_consume (fun (_ : T) (u : unit) => u) tt rb in
      if more then dtor_loop fuel rb else ret rb
  end.

Definition RingBuffer_dtor (fuel : nat) (rb : RingBuffer) : M RingBuffer :=
  dtor_loop fuel rb.

(** [RingBuffer(RingBuffer &&other) noexcept]: returns the new object and
    [other] as it is left behind. *)
Definition RingBuffer_move_ctor (other : RingBuffer) : RingBuffer * RingBuffer :=
  let this := {| _head := _head other; _tail := _tail other;
                 _storage := _storage other |} in
  let other := {| _head := _head other; _tail := _tail other;
                  _storage := None |} in
  let other := store_head 0 other in
  let other := store_tail 0 other in
  (this, other).

(** [while (try_pop()) {}] of the move assignment: the temporary that
    [try_pop] returns is tested and destroyed at the end of the condition.
    With the slot object and the local of [try_pop], that is three
    destructor calls for each element taken out. *)
Fixpoint assign_loop (fuel : nat) (rb : RingBuffer) : M RingBuffer :=
  match fuel with
  | O => out_of_fuel
  | S fuel =>
      let* '(result, rb) := try_pop rb in
      let* _ := destroy_optional result in
      match result with
      | Some _ => assign_loop fuel rb
      | None => ret rb
      end
  end.

(** [RingBuffer &operator=(RingBuffer &&other) noexcept].  The two objects
    are given with their addresses, which [this != &other] compares; on
    self-assignment both arguments are the one object.  Returns [*this] and
    [other] after the call. *)
Definition operator_assign (fuel : nat) (this_addr other_addr : nat)
    (this other : RingBuffer) : M (RingBuffer * RingBuffer) :=
  if bool_decide (this_addr <> other_addr) then
    let* this := assign_loop fuel this in
    let this := store_head (_head other) this in
    let this := store_tail (_tail other) this in
    let this := {| _head := _head this; _tail := _tail this;
                   _storage := _storage other |} in
    let other := {| _head := _head other; _tail := _tail other;
                    _storage := None |} in
    let other := store_head 0 other in
    let other := store_tail 0 other in
    ret (this, other)
  else ret (this, this).

(** *** Sequential clients *)

(** One call of the public interface, as the fuzz harness and the tests
    issue them, and what the caller gets back. *)
Inductive op : Type :=
| Push (item : T)
| Emplace (args : Args)
| Pop
| PopIp (out : T)
| Consume
| IsFull
| IsEmpty.

Inductive response : Type :=
| Pushed (ok : bool)
| Popped (result : option T)
| PoppedIp (ok : bool) (out : T)
| Consumed (ok : bool) (seen : list T)
| Flag (b : bool).

(** [Consume] passes a callback that appends its argument to a list. *)
Definition call (o : op) (rb : RingBuffer) : M (response * RingBuffer) :=
  match o with
  | Push item => let* '(ok, rb) := try_push item rb in ret (Pushed ok, rb)
  | Emplace args => let* '(ok, rb) := emplace args rb in ret (Pushed ok, rb)
  | Pop => let* '(result, rb) := try_pop rb in ret (Popped result, rb)
  | PopIp out =>
      let* '(ok, out, rb) := try_pop_ip out rb in ret (PoppedIp ok out, rb)
  | Consume =>
      let* '(ok, seen, rb) :=
        try_consume (fun v (seen : list T) => seen ++ [v]) [] rb in
      ret (Consumed ok seen, rb)
  | IsFull => ret (Flag (is_full rb), rb)
  | IsEmpty => ret (Flag (is_empty rb), rb)
  end.

Fixpoint run (ops : list op) (rb : RingBuffer) : M (list response * RingBuffer) :=
  match ops with
  | [] => ret ([], rb)
  | o :: ops =>
      let* '(r, rb) := call o rb in
      let* '(rs, rb) := run ops rb in
      ret (r :: rs, rb)
  end.

(** The value a successful push supplied, the value a successful pop
    delivered. *)
Definition pushed_value (o : op) (r : response) : list T :=
  match o, r with
  | Push item, Pushed true => [item]
  | Emplace args, Pushed true => [construct args]
  | _, _ => []
  end.

Definition popped_value (r : response) : list T :=
  match r with
  | Popped (Some v) => [v]
  | PoppedIp true v => [v]
  | Consumed true seen => seen
  | _ => []
  end.

Definition pushes (ops : list op) (rs : list response) : list T :=
  concat (zip_with pushed_value ops rs).

Definition pops (rs : list response) : list T :=
  concat (map popped_value rs).

(** States a client can bring a new buffer into. *)
Inductive reachable : RingBuffer -> Prop :=
| reachable_ctor : reachable RingBuffer_ctor
| reachable_call rb o log r rb' log' :
    reachable rb -> call o rb log = Ok (r, rb', log') -> reachable rb'.

(** *** What a buffer holds *)

(** Number of elements between the cursors, and the circular range
    [[tail, head)] of the slots that carry them. *)
Definition count (rb : RingBuffer) : Z := (_head rb - _tail rb) mod Capacity.

Definition occupied (rb : RingBuffer) (i : Z) : Prop :=
  0 <= i < Capacity /\ (i - _tail rb) mod Capacity < count rb.

(** The live objects found in the slots from [tail] up to [head]. *)
Definition contents (rb : RingBuffer) : list T :=
  omap (fun k => slot_at rb ((_tail rb + k) mod Capacity)) (seqZ 0 (count rb)).

(** [holds rb q]: the buffer is in a proper state and carries the queue [q],
    oldest element first.  The array has [Capacity] slots, both cursors
    index it, [head] is [length q] slots ahead of [tail], the slots of
    [[tail, head)] hold the elements of [q] in order and every other slot
    holds no live object. *)
Definition holds (rb : RingBuffer) (q : list T) : Prop :=
  exists slots,
    _storage rb = Some slots /\
    Z.of_nat (length slots) = Capacity /\
    0 <= _tail rb < Capacity /\
    Z.of_nat (length q) < Capacity /\
    _head rb = (_tail rb + Z.of_nat (length q)) mod Capacity /\
    forall i, 0 <= i < Capacity ->
      slots !! Z.to_nat i = Some (q !! Z.to_nat ((i - _tail rb) mod Capacity)).

Definition valid (rb : RingBuffer) : Prop := exists q, holds rb q.

(** *** The queue a buffer stands for *)

(** The bounded FIFO queue of depth [Capacity - 1] that the operations are
    compared with: what each call answers on the queue [q], and the queue it
    leaves. *)
Definition queue_call (o : op) (q : list T) : response * list T :=
  match o with
  | Push item =>
      if bool_decide (Z.of_nat (length q) = Capacity - 1) then (Pushed false, q)
      else (Pushed true, q ++ [item])
  | Emplace args =>
      if bool_decide (Z.of_nat (length q) = Capacity - 1) then (Pushed false, q)
      else (Pushed true, q ++ [construct args])
  | Pop =>
      match q with
      | [] => (Popped None, [])
      | v :: q => (Popped (Some v), q)
      end
  | PopIp out =>
      match q with
      | [] => (PoppedIp false out, [])
      | v :: q => (PoppedIp true v, q)
      end
  | Consume =>
      match q with
      | [] => (Consumed false [], [])
      | v :: q => (Consumed true [v], q)
      end
  | IsFull => (Flag (bool_decide (Z.of_nat (length q) = Capacity - 1)), q)
  | IsEmpty => (Flag (bool_decide (length q = 0%nat)), q)
  end.

(** The values handed to the producer calls of a sequence, successful or not. *)
Definition supplied (ops : list op) : list T :=
  concat (map (fun o => match o with
                        | Push item => [item]
                        | Emplace args => [construct args]
                        | _ => []
                        end) ops).

(** [within_capacity ops n]: starting with [n] elements outstanding, no
    producer call of [ops] is issued while [Capacity - 1] elements are
    outstanding. *)
Fixpoint within_capacity (ops : list op) (n : nat) : bool :=
  match ops with
  | [] => true
  | (Push _ | Emplace _) :: ops =>
      bool_decide (Z.of_nat n < Capacity - 1) && within_capacity ops (S n)
  | (Pop | PopIp _ | Consume) :: ops => within_capacity ops (Nat.pred n)
  | (IsFull | IsEmpty) :: ops => within_capacity ops n
  end.

(** *** After a move *)

(** The state both move operations leave in [other]: cursors stored back to
    zero, [_storage] moved away. *)
Definition moved_from : RingBuffer :=
  {| _head := 0; _tail := 0; _storage := None |}.

(** Modelled from the spec: the combined state query [get_state()], which
    [tests/test_multithreaded.cpp] calls and reads as [.empty] and [.full];
    [ring_buffer.hpp] declares no such member.  Both flags are computed from
    one pair of cursor loads. *)
Definition get_state (rb : RingBuffer) : bool * bool :=
  let current_tail := _tail rb in
  let current_head := _head rb in
  let next_head := Z.land (size_t_wrap (current_head + 1)) (Capacity - 1) in
  (current_tail =? current_head, next_head =? current_tail).

(** *** Loops of the callers *)

(** The values whose slot object a log shows destroyed, in order. *)
Definition destroyed (log : list event) : list T := (slot_dtors log).*2.

(** [for (size_t i = 0; i < n; ++i) buffer.try_push(value(i));], the flags
    dropped, as in [tests/benchmark.cpp]; [i] is the running index. *)
Fixpoint push_loop (value : Z -> T) (n : nat) (i : Z) (rb : RingBuffer)
    : M RingBuffer :=
  match n with
  | O => ret rb
  | S n =>
      let* '(_, rb) := try_push (value i) rb in
      push_loop value n (i + 1) rb
  end.

(** [for (size_t i = 0; i < n; ++i) static_cast<void>(buffer.try_pop());] *)
Fixpoint pop_loop (n : nat) (rb : RingBuffer) : M RingBuffer :=
  match n with
  | O => ret rb
  | S n =>
      let* '(_, rb) := try_pop rb in
      pop_loop n rb
  end.

(** The outer loop of [main] in [tests/benchmark.cpp]: each round pushes
    [Capacity - 1] values and then pops [Capacity - 1] times. *)
Fixpoint fill_drain_rounds (value : Z -> T) (iterations : nat)
    (rb : RingBuffer) : M RingBuffer :=
  match iterations with
  | O => ret rb
  | S iterations =>
      let* rb := push_loop value (Z.to_nat (Capacity - 1)) 0 rb in
      let* rb := pop_loop (Z.to_nat (Capacity - 1)) rb in
      fill_drain_rounds value iterations rb
  end.

(** The loop of "Push and pop many elements" in [tests/test_main.cpp]:
    [buffer.try_push(i); auto result = buffer.try_pop();
     REQUIRE(result.has_value()); REQUIRE(val == i);].  [equal] is [==] on
    [T]; the flag tells whether every [REQUIRE] passed. *)
Fixpoint push_pop_loop (value : Z -> T) (equal : T -> T -> bool) (n : nat)
    (i : Z) (rb : RingBuffer) : M (bool * RingBuffer) :=
  match n with
  | O => ret (true, rb)
  | S n =>
      let* '(_, rb) := try_push (value i) rb in
      let* '(result, rb) := try_pop rb in
      match result with
      | None => ret (false, rb)
      | Some val =>
          if equal val (value i) then push_pop_loop value equal n (i + 1) rb
          else ret (false, rb)
      end
  end.

End RingBuffer.

(** *** Concrete buffers: [RingBuffer<int, 4>] *)

(** A buffer whose cursors have wrapped: it carries 20 and 30, in slots 3
    and 0. *)
Definition wrapped : @RingBuffer Z :=
  {| _head := 1; _tail := 3; _storage := Some [Some 30; None; None; Some 20] |}.

Definition wrapping_ops : list (@op Z Z) :=
  [Push 1; Push 2; Push 3; Pop; PopIp 0; Consume; Push 20; Emplace 30].

Notation "'let*' x ':=' m 'in' k" := (bind m (fun x => k))
  (at level 10, x name, m at level 100, k at level 200, only parsing).
Notation "'let*' ' pat ':=' m 'in' k" :=
  (bind m (fun x => match x with pat => k end))
  (at level 10, pat pattern, m at level 100, k at level 200, only parsing).

(** A full buffer: it carries 20, 30 and 40, in slots 3, 0 and 1. *)
Definition filled : @RingBuffer Z :=
  {| _head := 2; _tail := 3;
     _storage := Some [Some 30; Some 40; None; Some 20] |}.

(** An empty buffer whose cursors stand at the last slot. *)
Definition drained : @RingBuffer Z :=
  {| _head := 3; _tail := 3; _storage := Some [None; None; None; None] |}.

(** *** The callers *)

(** [static_cast<int>(i)] and [static_cast<uint32_t>(i)] of a [size_t]. *)
Definition static_cast_int (i : Z) : Z := (i + 2 ^ 31) mod 2 ^ 32 - 2 ^ 31.
Definition static_cast_uint32_t (i : Z) : Z := i mod 2 ^ 32.

(** [tests/benchmark.cpp]: the constants and [main], up to the point where
    the buffer goes out of scope. *)
Definition ITERATIONS : Z := 10000.
Definition CAPACITY : Z := 1024.

Definition benchmark_main : M (Z * @RingBuffer Z) :=
  let buffer := RingBuffer_ctor CAPACITY in
  let* buffer :=
    fill_drain_rounds CAPACITY static_cast_int (Z.to_nat ITERATIONS) buffer in
  ret (0, buffer).

(** [tests/test_main.cpp], "Push and pop many elements" on a
    [RingBuffer<int, 64>]. *)
Definition stress_push_pop_many : M (bool * @RingBuffer Z) :=
  push_pop_loop 64 id Z.eqb 1000 0 (RingBuffer_ctor 64).

(** [tests/fuzzer_test.cpp]: the loop of [LLVMFuzzerTestOneInput] over the
    bytes left, at index [i].  [out] is the uninitialised local of case 1,
    whatever it holds. *)
Fixpoint fuzz_loop (out : Z) (data : list byte) (i : Z) (buffer : @RingBuffer Z)
    : M (@RingBuffer Z) :=
  match data with
  | [] => ret buffer
  | b :: data =>
      let command := Z.of_N (Byte.to_N b) mod 4 in
      let* buffer :=
        if command =? 0 then
          let* '(_, buffer) := try_push 16 (static_cast_uint32_t i) buffer in
          ret buffer
        else if command =? 1 then
          let* '(_, _, buffer) := try_pop_ip 16 out buffer in
          ret buffer
        else if command =? 2 then
          let* '(_, buffer) := try_pop 16 buffer in
          ret buffer
        else
          let* '(_, buffer) := emplace 16 id (static_cast_uint32_t i) buffer in
          ret buffer in
      fuzz_loop out data (i + 1) buffer
  end.

(** [LLVMFuzzerTestOneInput(data, size)] on the function's [static] buffer:
    returns 0 and the buffer as the next call finds it. *)
Definition LLVMFuzzerTestOneInput (out : Z) (data : list byte)
    (buffer : @RingBuffer Z) : M (Z * @RingBuffer Z) :=
  let* buffer := fuzz_loop out data 0 buffer in
  ret (0, buffer).

(** ** Properties *)

Section Properties.

Context {T : Type}.
Variable Capacity : Z.
Context {Args : Type}.
Variable construct : Args -> T.

#[local] Abbreviation RingBuffer := (RingBuffer (T:=T)).
#[local] Abbreviation event := (event (T:=T)).
#[local] Abbreviation op := (op (T:=T) (Args:=Args)).
#[local] Abbreviation response := (response (T:=T)).
#[local] Abbreviation slot_at := (slot_at (T:=T)).
#[local] Abbreviation is_empty := (is_empty (T:=T)).
#[local] Abbreviation moved_from := (moved_from (T:=T)).
#[local] Abbreviation RingBuffer_move_ctor := (RingBuffer_move_ctor (T:=T)).
#[local] Abbreviation slot_dtors := (slot_dtors (T:=T)).
#[local] Abbreviation pops := (pops (T:=T)).
#[local] Abbreviation RingBuffer_ctor := (RingBuffer_ctor (T:=T) Capacity).
#[local] Abbreviation is_full := (is_full (T:=T) Capacity).
#[local] Abbreviation try_push := (try_push (T:=T) Capacity).
#[local] Abbreviation try_pop_ip := (try_pop_ip (T:=T) Capacity).
#[local] Abbreviation try_pop := (try_pop (T:=T) Capacity).
#[local] Abbreviation try_consume := (try_consume (T:=T) Capacity).
#[local] Abbreviation emplace := (emplace (T:=T) Capacity construct).
#[local] Abbreviation dtor_loop := (dtor_loop (T:=T) Capacity).
#[local] Abbreviation RingBuffer_dtor := (RingBuffer_dtor (T:=T) Capacity).
#[local] Abbreviation assign_loop := (assign_loop (T:=T) Capacity).
#[local] Abbreviation operator_assign := (operator_assign (T:=T) Capacity).
#[local] Abbreviation call := (call (T:=T) Capacity construct).
#[local] Abbreviation run := (run (T:=T) Capacity construct).
#[local] Abbreviation pushed_value := (pushed_value (T:=T) construct).
#[local] Abbreviation pushes := (pushes (T:=T) construct).
#[local] Abbreviation reachable := (reachable (T:=T) Capacity construct).
#[local] Abbreviation count := (count (T:=T) Capacity).
#[local] Abbreviation occupied := (occupied (T:=T) Capacity).
#[local] Abbreviation contents := (contents (T:=T) Capacity).
#[local] Abbreviation holds := (holds (T:=T) Capacity).
#[local] Abbreviation valid := (valid (T:=T) Capacity).
#[local] Abbreviation queue_call := (queue_call (T:=T) Capacity construct).
#[local] Abbreviation supplied := (supplied (T:=T) construct).
#[local] Abbreviation within_capacity := (within_capacity (T:=T) Capacity).
#[local] Abbreviation get_state := (get_state (T:=T) Capacity).
#[local] Abbreviation destroyed := (destroyed (T:=T)).
#[local] Abbreviation push_loop := (push_loop (T:=T) Capacity).
#[local] Abbreviation pop_loop := (pop_loop (T:=T) Capacity).
#[local] Abbreviation fill_drain_rounds := (fill_drain_rounds (T:=T) Capacity).
#[local] Abbreviation push_pop_loop := (push_pop_loop (T:=T) Capacity).

(** The two [static_assert]s of the class, and [Capacity] being a [size_t]. *)
Hypothesis Capacity_pow2 : Z.land Capacity (Capacity - 1) = 0.
Hypothesis Capacity_gt1 : 1 < Capacity.
Hypothesis Capacity_size_t : Capacity < 2 ^ 64.

(** *** The mask is a remainder *)

Lemma Capacity_is_pow2 : exists k, 0 <= k < 64 /\ Capacity = 2 ^ k.
Proof using Capacity_pow2 Capacity_gt1 Capacity_size_t.
  pose proof (Z.log2_nonneg Capacity) as Hk.
  pose proof (Z.log2_spec Capacity ltac:(lia)) as [Hlo Hhi].
  exists (Z.log2 Capacity).
  assert (Heq : Capacity = 2 ^ Z.log2 Capacity).
  { destruct (decide (Capacity = 2 ^ Z.log2 Capacity)) as [|Hne]; [done|].
    exfalso.
    assert (Hl : Z.log2 (Capacity - 1) = Z.log2 Capacity)
      by (apply Z.log2_unique; lia).
    pose proof (Z.bit_log2 Capacity ltac:(lia)) as Hb1.
    pose proof (Z.bit_log2 (Capacity - 1) ltac:(lia)) as Hb2.
    rewrite Hl in Hb2.
    pose proof (Z.land_spec Capacity (Capacity - 1) (Z.log2 Capacity)) as Hb.
    rewrite Capacity_pow2, Hb1, Hb2, Z.bits_0 in Hb. discriminate. }
  split; [split; [done|] | done].
  apply (Z.pow_lt_mono_r_iff 2); lia.
Qed.

Lemma mask_mod x : Z.land (size_t_wrap x) (Capacity - 1) = x mod Capacity.
Proof using Capacity_pow2 Capacity_gt1 Capacity_size_t.
  destruct Capacity_is_pow2 as (k & Hk & HC).
  unfold size_t_wrap. rewrite HC.
  replace (2 ^ k - 1) with (Z.ones k) by (rewrite Z.ones_equiv; lia).
  rewrite Z.land_ones by lia.
  apply Z.mod_mod_divide.
  exists (2 ^ (64 - k)). rewrite <- Z.pow_add_r by lia. f_equal. lia.
Qed.

Lemma mod_Capacity_cases x :
  - Capacity <= x < 2 * Capacity ->
  x mod Capacity =
    if decide (x < 0) then x + Capacity
    else if decide (x < Capacity) then x else x - Capacity.
Proof using Capacity_gt1.
  intros Hx. repeat case_decide.
  - symmetry. apply (Z.mod_unique_pos _ _ (-1)); lia.
  - apply Z.mod_small. lia.
  - symmetry. apply (Z.mod_unique_pos _ _ 1); lia.
Qed.

(** *** Producer and consumer steps on a proper state *)

Lemma holds_ctor : holds RingBuffer_ctor [].
Proof using Capacity_gt1.
  exists (replicate (Z.to_nat Capacity) None). simpl.
  rewrite length_replicate, Z.add_0_r, Z.mod_0_l by lia.
  repeat split; try lia.
  intros i Hi. rewrite lookup_replicate_2 by lia.
  by rewrite lookup_nil.
Qed.

Lemma try_push_full rb q item log :
  holds rb q -> Z.of_nat (length q) = Capacity - 1 ->
  try_push item rb log = Ok (false, rb, log).
Proof using Capacity_pow2 Capacity_gt1 Capacity_size_t.
  intros (slots & Hs & Hlen & Ht & Hq & Hh & Hsl) Hn.
  unfold try_push. rewrite mask_mod.
  rewrite mod_Capacity_cases in Hh by lia.
  assert (Hnext : (_head rb + 1) mod Capacity = _tail rb).
  { rewrite mod_Capacity_cases by (repeat case_decide; lia).
    repeat case_decide; lia. }
  rewrite Hnext, Z.eqb_refl. done.
Qed.

Lemma try_push_room rb q item log :
  holds rb q -> Z.of_nat (length q) < Capacity - 1 ->
  let rb' := store_head ((_head rb + 1) mod Capacity)
               (placement_new (_head rb) item rb) in
  try_push item rb log = Ok (true, rb', log) /\ holds rb' (q ++ [item]).
Proof using Capacity_pow2 Capacity_gt1 Capacity_size_t.
  intros (slots & Hs & Hlen & Ht & Hq & Hh & Hsl) Hn rb'.
  assert (Hhr : 0 <= _head rb < Capacity)
    by (rewrite Hh; apply Z.mod_pos_bound; lia).
  assert (Hd : (_head rb - _tail rb) mod Capacity = Z.of_nat (length q)).
  { rewrite mod_Capacity_cases in Hh by lia.
    rewrite mod_Capacity_cases by lia. repeat case_decide; lia. }
  split.
  - unfold try_push. rewrite mask_mod.
    assert (Hnext : (_head rb + 1) mod Capacity <> _tail rb).
    { rewrite mod_Capacity_cases in Hd by lia.
      rewrite mod_Capacity_cases by lia. repeat case_decide; lia. }
    apply Z.eqb_neq in Hnext. rewrite Hnext.
    unfold bind, get_ptr. rewrite Hs, bool_decide_eq_true_2 by lia. done.
  - exists (<[Z.to_nat (_head rb) := Some item]> slots).
    subst rb'. unfold placement_new, set_slot. simpl. rewrite Hs. simpl.
    rewrite length_insert, length_app. simpl.
    repeat split; try lia.
    + rewrite mod_Capacity_cases in Hd by lia.
      rewrite !mod_Capacity_cases by lia. repeat case_decide; lia.
    + intros i Hi. destruct (decide (i = _head rb)) as [->|Hne].
      * rewrite list_lookup_insert_eq by lia. rewrite Hd, Nat2Z.id.
        by rewrite list_lookup_middle.
      * rewrite list_lookup_insert_ne by lia. rewrite (Hsl i Hi). f_equal.
        assert (Hj : (i - _tail rb) mod Capacity <> Z.of_nat (length q)).
        { rewrite mod_Capacity_cases in Hd by lia.
          rewrite mod_Capacity_cases by lia. repeat case_decide; lia. }
        pose proof (Z.mod_pos_bound (i - _tail rb) Capacity ltac:(lia)).
        generalize dependent ((i - _tail rb) mod Capacity). intros j Hj Hjr.
        destruct (decide (j < Z.of_nat (length q))).
        -- by rewrite lookup_app_l by lia.
        -- rewrite !lookup_ge_None_2; [done| |lia].
           rewrite length_app. simpl. lia.
Qed.

Lemma try_consume_empty {S : Type} (processor : T -> S -> S) env rb log :
  holds rb [] -> try_consume processor env rb log = Ok (false, env, rb, log).
Proof using Capacity_gt1.
  intros (slots & Hs & Hlen & Ht & Hq & Hh & Hsl). simpl in Hh.
  rewrite Z.add_0_r, Z.mod_small in Hh by lia.
  unfold bring.try_consume. by rewrite Hh, Z.eqb_refl.
Qed.

Lemma try_consume_front {S : Type} (processor : T -> S -> S) env rb v q log :
  holds rb (v :: q) ->
  let rb' := store_tail ((_tail rb + 1) mod Capacity)
               (set_slot (_tail rb) None rb) in
  try_consume processor env rb log =
    Ok (true, processor v env, rb', log ++ [SlotDtor (_tail rb) v])
  /\ holds rb' q.
Proof using Capacity_pow2 Capacity_gt1 Capacity_size_t.
  intros (slots & Hs & Hlen & Ht & Hq & Hh & Hsl) rb'.
  simpl length in *.
  assert (Hfront : slot_at rb (_tail rb) = Some v).
  { unfold slot_at. rewrite Hs. cbn match.
    rewrite bool_decide_eq_true_2, (Hsl _ Ht) by lia.
    by rewrite Z.sub_diag, Z.mod_0_l by lia. }
  split.
  - unfold bring.try_consume. rewrite mask_mod.
    assert (Hne : _tail rb <> _head rb).
    { rewrite Hh, mod_Capacity_cases by lia. repeat case_decide; lia. }
    apply Z.eqb_neq in Hne. rewrite Hne.
    unfold bind, get_ptr, move_from, destroy_at, bind, emit, ret.
    rewrite Hs, bool_decide_eq_true_2 by lia. by rewrite Hfront.
  - exists (<[Z.to_nat (_tail rb) := None]> slots).
    subst rb'. unfold set_slot. simpl. rewrite Hs. simpl.
    rewrite length_insert.
    assert (Hr : 0 <= (_tail rb + 1) mod Capacity < Capacity)
      by (apply Z.mod_pos_bound; lia).
    repeat split; try lia.
    + rewrite Hh, Zplus_mod_idemp_l. f_equal. lia.
    + intros i Hi. destruct (decide (i = _tail rb)) as [->|Hne].
      * rewrite list_lookup_insert_eq by lia. f_equal. symmetry.
        apply lookup_ge_None_2.
        rewrite Zminus_mod_idemp_r, mod_Capacity_cases by lia.
        repeat case_decide; lia.
      * rewrite list_lookup_insert_ne by lia. rewrite (Hsl i Hi). f_equal.
        assert (Hj : (i - _tail rb) mod Capacity =
                     (i - (_tail rb + 1) mod Capacity) mod Capacity + 1).
        { rewrite Zminus_mod_idemp_r, !mod_Capacity_cases by lia.
          repeat case_decide; lia. }
        pose proof (Z.mod_pos_bound (i - (_tail rb + 1) mod Capacity)
                      Capacity ltac:(lia)) as Hjr.
        rewrite Hj.
        generalize dependent ((i - (_tail rb + 1) mod Capacity) mod Capacity).
        intros j _ Hjr.
        replace (Z.to_nat (j + 1)) with (Datatypes.S (Z.to_nat j)) by lia.
        done.
Qed.

(** *** The three consumer shapes, on any state *)

(** [try_pop_ip] is [try_consume] with a callback that assigns to [out]. *)
Lemma try_pop_ip_as_try_consume out rb log :
  try_pop_ip out rb log = try_consume (fun v (_ : T) => v) out rb log.
Proof using Type.
  unfold bring.try_pop_ip, bring.try_consume.
  destruct (_tail rb =? _head rb); [done|].
  unfold bind, get_ptr, move_from, destroy_at, bind, emit, ret, undefined.
  destruct (_storage rb) as [slots|] eqn:Hs; [|done].
  case_bool_decide; [|done].
  destruct (slot_at rb (_tail rb)); done.
Qed.

(** [try_pop] is [try_consume] with a callback that fills the [optional],
    followed by the destruction of the local [optional]. *)
Lemma try_pop_as_try_consume rb log :
  try_pop rb log =
    match try_consume (fun v (_ : option T) => Some v) None rb log with
    | Ok (_, Some v, rb', log') => Ok (Some v, rb', log' ++ [TempDtor v])
    | Ok (_, None, rb', log') => Ok (None, rb', log')
    | Undefined why => Undefined why
    | OutOfFuel => OutOfFuel
    end.
Proof using Type.
  unfold bring.try_pop, bring.try_consume.
  destruct (_tail rb =? _head rb); [done|].
  unfold bind, get_ptr, move_from, destroy_at, destroy_optional, bind, emit,
    ret, undefined.
  destruct (_storage rb) as [slots|] eqn:Hs; [|done].
  case_bool_decide; [|done].
  destruct (slot_at rb (_tail rb)); done.
Qed.

Lemma try_pop_empty rb log :
  holds rb [] -> try_pop rb log = Ok (None, rb, log).
Proof using Capacity_gt1.
  intros Hrb. rewrite try_pop_as_try_consume.
  by rewrite (try_consume_empty _ _ rb log Hrb).
Qed.

Lemma try_pop_front rb v q log :
  holds rb (v :: q) ->
  let rb' := store_tail ((_tail rb + 1) mod Capacity)
               (set_slot (_tail rb) None rb) in
  try_pop rb log =
    Ok (Some v, rb', (log ++ [SlotDtor (_tail rb) v]) ++ [TempDtor v])
  /\ holds rb' q.
Proof using Capacity_pow2 Capacity_gt1 Capacity_size_t.
  intros Hrb rb'. rewrite try_pop_as_try_consume.
  destruct (try_consume_front (fun v (_ : option T) => Some v) None
              rb v q log Hrb) as [-> Hrb'].
  done.
Qed.

Lemma try_pop_ip_empty out rb log :
  holds rb [] -> try_pop_ip out rb log = Ok (false, out, rb, log).
Proof using Capacity_gt1.
  intros Hrb. rewrite try_pop_ip_as_try_consume.
  by apply try_consume_empty.
Qed.

Lemma try_pop_ip_front out rb v q log :
  holds rb (v :: q) ->
  let rb' := store_tail ((_tail rb + 1) mod Capacity)
               (set_slot (_tail rb) None rb) in
  try_pop_ip out rb log = Ok (true, v, rb', log ++ [SlotDtor (_tail rb) v])
  /\ holds rb' q.
Proof using Capacity_pow2 Capacity_gt1 Capacity_size_t.
  intros Hrb rb'. rewrite try_pop_ip_as_try_consume.
  by apply (try_consume_front (fun v (_ : T) => v) out).
Qed.

(** *** Each call refines the queue *)

Lemma holds_head_range rb q : holds rb q -> 0 <= _head rb < Capacity.
Proof using Capacity_gt1.
  intros (slots & Hs & Hlen & Ht & Hq & Hh & Hsl).
  rewrite Hh. apply Z.mod_pos_bound. lia.
Qed.

Lemma holds_count rb q : holds rb q -> count rb = Z.of_nat (length q).
Proof using Capacity_gt1.
  intros (slots & Hs & Hlen & Ht & Hq & Hh & Hsl). unfold count.
  rewrite Hh, Zminus_mod_idemp_l, mod_Capacity_cases by lia.
  repeat case_decide; lia.
Qed.

Lemma is_full_holds rb q :
  holds rb q -> is_full rb = bool_decide (Z.of_nat (length q) = Capacity - 1).
Proof using Capacity_pow2 Capacity_gt1 Capacity_size_t.
  intros (slots & Hs & Hlen & Ht & Hq & Hh & Hsl).
  unfold is_full. rewrite mask_mod, Hh, Zplus_mod_idemp_l.
  rewrite mod_Capacity_cases by lia.
  case_bool_decide; repeat case_decide; lia.
Qed.

Lemma is_empty_holds rb q :
  holds rb q -> is_empty rb = bool_decide (length q = 0%nat).
Proof using Capacity_gt1.
  intros (slots & Hs & Hlen & Ht & Hq & Hh & Hsl).
  unfold is_empty. rewrite Hh, mod_Capacity_cases by lia.
  case_bool_decide; repeat case_decide; lia.
Qed.

Lemma emplace_as_try_push args rb :
  emplace args rb = try_push (construct args) rb.
Proof using Type. reflexivity. Qed.

Lemma call_refines rb q o log :
  holds rb q ->
  exists rb' log',
    call o rb log = Ok ((queue_call o q).1, rb', log') /\
    holds rb' (queue_call o q).2.
Proof using Capacity_pow2 Capacity_gt1 Capacity_size_t.
  intros Hrb.
  assert (Hlen : Z.of_nat (length q) < Capacity)
    by (destruct Hrb as (? & ? & ? & ? & ? & ?); lia).
  assert (Hpush : forall item,
    exists rb' log',
      bind (try_push item rb) (fun '(ok, rb) => ret (Pushed ok, rb)) log =
        Ok ((queue_call (Push item) q).1, rb', log') /\
      holds rb' (queue_call (Push item) q).2).
  { intros item. unfold bind, ret, queue_call. case_bool_decide as Hn.
    - rewrite (try_push_full rb q) by done. eauto.
    - destruct (try_push_room rb q item log Hrb ltac:(lia)) as [-> Hrb'].
      eauto. }
  destruct o as [item|args| |out| | |]; simpl call.
  - apply Hpush.
  - rewrite emplace_as_try_push. apply (Hpush (construct args)).
  - unfold bind, ret. destruct q as [|v q]; simpl.
    + rewrite try_pop_empty by done. eauto.
    + destruct (try_pop_front rb v q log Hrb) as [-> Hrb']. eauto.
  - unfold bind, ret. destruct q as [|v q]; simpl.
    + rewrite try_pop_ip_empty by done. eauto.
    + destruct (try_pop_ip_front out rb v q log Hrb) as [-> Hrb']. eauto.
  - unfold bind, ret. destruct q as [|v q]; simpl.
    + rewrite try_consume_empty by done. eauto.
    + destruct (try_consume_front (fun v (seen : list T) => seen ++ [v]) []
                  rb v q log Hrb) as [-> Hrb'].
      eauto.
  - unfold ret. simpl. rewrite (is_full_holds rb q) by done. eauto.
  - unfold ret. simpl. rewrite (is_empty_holds rb q) by done. eauto.
Qed.

(** A proper state stays proper, and a new buffer is in one. *)
Lemma reachable_valid rb : reachable rb -> valid rb.
Proof using Capacity_pow2 Capacity_gt1 Capacity_size_t.
  induction 1 as [|rb o log r rb' log' _ [q Hq] Hcall].
  - exists []. apply holds_ctor.
  - destruct (call_refines rb q o log Hq) as (rb1 & log1 & Heq & Hrb1).
    rewrite Heq in Hcall. injection Hcall as _ <- _. by eexists.
Qed.

(** The queue model keeps the supplied values in order. *)
Lemma queue_call_order o q :
  q ++ pushed_value o (queue_call o q).1 =
  popped_value (queue_call o q).1 ++ (queue_call o q).2.
Proof using Type.
  destruct o; simpl; try case_bool_decide; try destruct q; simpl;
    by rewrite ?app_nil_r.
Qed.

Lemma run_refines ops : forall rb q log,
  holds rb q ->
  exists rs rb' log' q',
    run ops rb log = Ok (rs, rb', log') /\ holds rb' q' /\
    q ++ pushes ops rs = pops rs ++ q' /\
    (within_capacity ops (length q) = true -> pushes ops rs = supplied ops).
Proof using Capacity_pow2 Capacity_gt1 Capacity_size_t.
  induction ops as [|o ops IH]; intros rb q log Hrb.
  - exists [], rb, log, q. repeat split; [done|]. by rewrite app_nil_r.
  - destruct (call_refines rb q o log Hrb) as (rb1 & log1 & Hcall & Hrb1).
    destruct (IH rb1 _ log1 Hrb1) as (rs & rb' & log' & q' & Hrun & Hrb' & Ho & Hw).
    exists ((queue_call o q).1 :: rs), rb', log', q'.
    split; [|split; [done|split]].
    + simpl. unfold bind at 1. rewrite Hcall. unfold bind at 1.
      by rewrite Hrun.
    + unfold pushes, pops in *. simpl.
      rewrite app_assoc, queue_call_order, <- !app_assoc. by f_equal.
    + intros Hcap. unfold pushes, supplied in *. simpl. f_equal.
      * destruct o; simpl in *; try done;
          apply andb_true_iff in Hcap as [Hroom _];
          apply bool_decide_eq_true_1 in Hroom;
          by rewrite bool_decide_eq_false_2 by lia.
      * apply Hw. destruct o; simpl in *; try done.
        -- apply andb_true_iff in Hcap as [Hroom Hcap].
           apply bool_decide_eq_true_1 in Hroom.
           rewrite bool_decide_eq_false_2 by lia. simpl.
           rewrite length_app. simpl. by rewrite Nat.add_1_r.
        -- apply andb_true_iff in Hcap as [Hroom Hcap].
           apply bool_decide_eq_true_1 in Hroom.
           rewrite bool_decide_eq_false_2 by lia. simpl.
           rewrite length_app. simpl. by rewrite Nat.add_1_r.
        -- by destruct q.
        -- by destruct q.
        -- by destruct q.
Qed.

(** *** What a call leaves alone, on any state *)

Lemma try_push_frame item rb log ok rb' log' :
  try_push item rb log = Ok (ok, rb', log') ->
  _tail rb' = _tail rb /\ log' = log /\
  forall i, i <> _head rb -> slot_at rb' i = slot_at rb i.
Proof using Type.
  unfold try_push.
  destruct (_ =? _tail rb); [intros [= _ <- <-]; done|].
  unfold bind, get_ptr, ret, undefined.
  destruct (_storage rb) as [slots|] eqn:Hs; [|done].
  case_bool_decide as Hb; [|done]. intros [= _ <- <-].
  repeat split. intros i Hi.
  unfold store_head, placement_new, slot_at. simpl. rewrite Hs. simpl.
  case_bool_decide; [|done]. by rewrite list_lookup_insert_ne by lia.
Qed.

Lemma try_pop_frame rb log result rb' log' :
  try_pop rb log = Ok (result, rb', log') ->
  _head rb' = _head rb /\
  forall i, i <> _tail rb -> slot_at rb' i = slot_at rb i.
Proof using Type.
  unfold try_pop.
  destruct (_tail rb =? _head rb); [intros [= _ <- _]; done|].
  unfold bind, get_ptr, move_from, destroy_at, bind, emit, ret, undefined.
  destruct (_storage rb) as [slots|] eqn:Hs; [|done].
  case_bool_decide as Hb; [|done].
  destruct (slot_at rb (_tail rb)); [|done]. intros [= _ <- _].
  split; [done|]. intros i Hi.
  unfold store_tail, set_slot, slot_at. simpl. rewrite Hs. simpl.
  case_bool_decide; [|done]. by rewrite list_lookup_insert_ne by lia.
Qed.

Lemma try_consume_frame {S : Type} (processor : T -> S -> S) env rb log
    ok env' rb' log' :
  try_consume processor env rb log = Ok (ok, env', rb', log') ->
  _head rb' = _head rb /\
  forall i, i <> _tail rb -> slot_at rb' i = slot_at rb i.
Proof using Type.
  unfold bring.try_consume.
  destruct (_tail rb =? _head rb); [intros [= _ _ <- _]; done|].
  unfold bind, get_ptr, move_from, destroy_at, bind, emit, ret, undefined.
  destruct (_storage rb) as [slots|] eqn:Hs; [|done].
  case_bool_decide as Hb; [|done].
  destruct (slot_at rb (_tail rb)); [|done]. intros [= _ _ <- _].
  split; [done|]. intros i Hi.
  unfold store_tail, set_slot, slot_at. simpl. rewrite Hs. simpl.
  case_bool_decide; [|done]. by rewrite list_lookup_insert_ne by lia.
Qed.

(** *** The calls on a proper state, spelled out *)

Lemma try_push_valid item rb log :
  valid rb ->
  exists ok rb',
    try_push item rb log = Ok (ok, rb', log) /\ valid rb' /\
    (ok = false <-> (_head rb + 1) mod Capacity = _tail rb) /\
    (ok = false -> rb' = rb).
Proof using Capacity_pow2 Capacity_gt1 Capacity_size_t.
  intros [q Hq].
  pose proof (is_full_holds rb q Hq) as Hfull.
  unfold is_full in Hfull. rewrite mask_mod in Hfull.
  assert (Hlen : Z.of_nat (length q) < Capacity)
    by (destruct Hq as (? & ? & ? & ? & ? & ?); lia).
  destruct (decide (Z.of_nat (length q) = Capacity - 1)) as [Hn|Hn].
  - exists false, rb. rewrite (try_push_full rb q) by done.
    rewrite bool_decide_eq_true_2 in Hfull by done.
    apply Z.eqb_eq in Hfull. repeat split; [by exists q|done..].
  - destruct (try_push_room rb q item log Hq ltac:(lia)) as [Heq Hrb'].
    eexists true, _. rewrite Heq.
    rewrite bool_decide_eq_false_2 in Hfull by done.
    apply Z.eqb_neq in Hfull. repeat split; [by eexists|done..].
Qed.

Lemma try_pop_valid rb log :
  valid rb ->
  exists result rb' log',
    try_pop rb log = Ok (result, rb', log') /\ valid rb' /\
    (result = None <-> _tail rb = _head rb) /\
    (result = None -> rb' = rb /\ log' = log).
Proof using Capacity_pow2 Capacity_gt1 Capacity_size_t.
  intros [q Hq].
  pose proof (is_empty_holds rb q Hq) as Hempty. unfold is_empty in Hempty.
  destruct q as [|v q].
  - exists None, rb, log. rewrite try_pop_empty by done.
    apply Z.eqb_eq in Hempty. repeat split; [by exists []|done..].
  - destruct (try_pop_front rb v q log Hq) as [Heq Hrb'].
    eexists (Some v), _, _. rewrite Heq.
    apply Z.eqb_neq in Hempty. repeat split; [by eexists|done..].
Qed.

Lemma try_consume_valid {S : Type} (processor : T -> S -> S) env rb log :
  valid rb ->
  exists ok env' rb' log',
    try_consume processor env rb log = Ok (ok, env', rb', log') /\
    valid rb' /\
    (ok = false <-> _tail rb = _head rb) /\
    (ok = false -> env' = env /\ rb' = rb /\ log' = log).
Proof using Capacity_pow2 Capacity_gt1 Capacity_size_t.
  intros [q Hq].
  pose proof (is_empty_holds rb q Hq) as Hempty.
  unfold bring.is_empty in Hempty.
  destruct q as [|v q].
  - exists false, env, rb, log. rewrite try_consume_empty by done.
    apply Z.eqb_eq in Hempty. repeat split; [by exists []|done..].
  - destruct (try_consume_front processor env rb v q log Hq) as [Heq Hrb'].
    eexists true, _, _, _. rewrite Heq.
    apply Z.eqb_neq in Hempty. repeat split; [by eexists|done..].
Qed.

(** *** Reading the queue back from the slots *)

Lemma omap_lookup_seq (pre q : list T) :
  omap (fun k => (pre ++ q) !! k) (seq (length pre) (length q)) = q.
Proof using Type.
  revert pre. induction q as [|v q IH]; intros pre; [done|].
  simpl. rewrite list_lookup_middle by done. f_equal.
  specialize (IH (pre ++ [v])).
  rewrite length_app, Nat.add_1_r, <- app_assoc in IH. done.
Qed.

Lemma omap_ext_elem {A B} (f g : A -> option B) (l : list A) :
  (forall x, x ∈ l -> f x = g x) -> omap f l = omap g l.
Proof using Type.
  induction l as [|x l IH]; intros Hfg; [done|].
  assert (Hl : omap f l = omap g l).
  { apply IH. intros y Hy. apply Hfg. by apply list_elem_of_further. }
  simpl. rewrite (Hfg x) by apply list_elem_of_here.
  destruct (g x); [f_equal|]; exact Hl.
Qed.

Lemma omap_fmap_compose {A B C} (f : B -> option C) (g : A -> B) (l : list A) :
  omap f (g <$> l) = omap (fun x => f (g x)) l.
Proof using Type.
  induction l as [|x l IH]; [done|]. simpl.
  destruct (f (g x)); [f_equal|]; exact IH.
Qed.

Lemma holds_contents rb q : holds rb q -> contents rb = q.
Proof using Capacity_gt1.
  intros Hq. unfold contents. rewrite (holds_count rb q Hq).
  destruct Hq as (slots & Hs & Hlen & Ht & Hq & Hh & Hsl).
  unfold seqZ. rewrite Nat2Z.id, omap_fmap_compose.
  rewrite <- (omap_lookup_seq [] q) at 2. simpl.
  apply omap_ext_elem. intros k Hk. apply elem_of_seq in Hk.
  unfold slot_at. rewrite Hs.
  pose proof (Z.mod_pos_bound (_tail rb + (Z.of_nat k + 0)) Capacity ltac:(lia)).
  rewrite bool_decide_eq_true_2 by lia. rewrite Hsl by lia. simpl. f_equal.
  rewrite Zminus_mod_idemp_l, mod_Capacity_cases by lia.
  repeat case_decide; lia.
Qed.

(** *** The draining loops *)

Lemma dtor_loop_drains q : forall rb fuel log,
  holds rb q -> (length q < fuel)%nat ->
  exists rb',
    dtor_loop fuel rb log =
      Ok (rb', log ++ imap (fun k v =>
                 SlotDtor ((_tail rb + Z.of_nat k) mod Capacity) v) q) /\
    holds rb' [].
Proof using Capacity_pow2 Capacity_gt1 Capacity_size_t.
  induction q as [|v q IH]; intros rb fuel log Hrb Hfuel;
    (destruct fuel as [|fuel]; [simpl in Hfuel; lia|]); simpl dtor_loop.
  - exists rb. unfold bind. rewrite try_consume_empty by done.
    simpl. by rewrite app_nil_r.
  - unfold bind.
    destruct (try_consume_front (fun (_ : T) (u : unit) => u) tt
                rb v q log Hrb) as [-> Hrb'].
    destruct (IH _ fuel (log ++ [SlotDtor (_tail rb) v]) Hrb')
      as (rb' & -> & Hrb''); [simpl in Hfuel; lia|].
    exists rb'. split; [|done]. rewrite imap_cons, <- app_assoc. simpl.
    assert (Ht : 0 <= _tail rb < Capacity)
      by (destruct Hrb as (? & ? & ? & ? & ?); done).
    rewrite Z.add_0_r, (Z.mod_small (_tail rb)) by done.
    do 4 f_equal. apply imap_ext. intros k x _. simpl.
    rewrite Zplus_mod_idemp_l. do 2 f_equal. lia.
Qed.

Lemma assign_loop_drains q : forall rb fuel log,
  holds rb q -> (length q < fuel)%nat ->
  exists rb' log', assign_loop fuel rb log = Ok (rb', log') /\ holds rb' [].
Proof using Capacity_pow2 Capacity_gt1 Capacity_size_t.
  induction q as [|v q IH]; intros rb fuel log Hrb Hfuel;
    (destruct fuel as [|fuel]; [simpl in Hfuel; lia|]); simpl assign_loop.
  - exists rb, log. unfold bind. by rewrite try_pop_empty by done.
  - unfold bind. destruct (try_pop_front rb v q log Hrb) as [-> Hrb'].
    unfold emit. apply IH; [done|]. simpl in Hfuel. lia.
Qed.

Lemma run_reachable ops : forall rb log rs rb' log',
  reachable rb -> run ops rb log = Ok (rs, rb', log') -> reachable rb'.
Proof using Type.
  induction ops as [|o ops IH]; intros rb log rs rb' log' Hrb Hrun.
  - injection Hrun as _ <- _. done.
  - simpl in Hrun. unfold bind at 1 in Hrun.
    destruct (call o rb log) as [[[r rb1] log1]| |] eqn:Hcall; try done.
    unfold bind at 1 in Hrun.
    destruct (run ops rb1 log1) as [[[rs1 rb2] log2]| |] eqn:Hrun1; try done.
    injection Hrun as _ <- _.
    eapply IH; [|exact Hrun1]. by eapply reachable_call.
Qed.

(** ** The claims *)

(** C1 - FIFO order.  Every sequence of producer and consumer calls on a new
    buffer runs without fault, and the k-th value delivered by a successful
    pop ([try_pop], [try_pop_ip] or [try_consume]) is the k-th value stored
    by a successful push ([try_push] or [emplace]), whatever the number of
    wrap-arounds of the cursors.  When the sequence never issues a push with
    [Capacity - 1] elements outstanding, every push succeeds, so the k-th pop
    delivers the k-th value supplied. *)
Theorem fifo_order (ops : list op) (log : list event) :
  exists rs rb' log',
    run ops RingBuffer_ctor log = Ok (rs, rb', log') /\
    (forall (k : nat) (v : T),
        pops rs !! k = Some v -> pushes ops rs !! k = Some v) /\
    (within_capacity ops 0 = true -> pushes ops rs = supplied ops).
Proof using Capacity_pow2 Capacity_gt1 Capacity_size_t.
  destruct (run_refines ops RingBuffer_ctor [] log holds_ctor)
    as (rs & rb' & log' & q' & Hrun & _ & Horder & Hcap).
  exists rs, rb', log'. split; [done|]. split; [|done].
  intros k v Hk. simpl in Horder. rewrite Horder.
  by apply lookup_app_l_Some.
Qed.

Lemma push_all_room items : forall rb q log,
  holds rb q ->
  Z.of_nat (length q) + Z.of_nat (length items) <= Capacity - 1 ->
  exists rb',
    run (map Push items) rb log =
      Ok (map (fun _ => Pushed true) items, rb', log) /\
    holds rb' (q ++ items).
Proof using Capacity_pow2 Capacity_gt1 Capacity_size_t.
  induction items as [|item items IH]; intros rb q log Hrb Hlen.
  - exists rb. by rewrite app_nil_r.
  - simpl in Hlen.
    destruct (try_push_room rb q item log Hrb ltac:(lia)) as [Hpush Hrb1].
    destruct (IH _ (q ++ [item]) log Hrb1) as (rb' & Hrun & Hrb').
    { rewrite length_app. simpl. lia. }
    exists rb'. rewrite <- app_assoc in Hrb'. split; [|done].
    cbn [run map call]. unfold bind, ret in *. rewrite Hpush.
    by rewrite Hrun.
Qed.

(** C2 - usable capacity.  On a new buffer the first [Capacity - 1]
    [try_push] calls in a row all return [true]; the next one returns [false]
    and leaves the buffer (both cursors and every slot) as it was. *)
Theorem capacity_limit (items : list T) (item : T) (log : list event) :
  Z.of_nat (length items) = Capacity - 1 ->
  exists rb,
    run (map Push items) RingBuffer_ctor log =
      Ok (map (fun _ => Pushed true) items, rb, log) /\
    contents rb = items /\
    try_push item rb log = Ok (false, rb, log).
Proof using Capacity_pow2 Capacity_gt1 Capacity_size_t.
  intros Hlen.
  destruct (push_all_room items RingBuffer_ctor [] log holds_ctor)
    as (rb & Hrun & Hrb); [simpl; lia|].
  simpl in Hrb. exists rb. split; [done|]. split.
  - by apply holds_contents.
  - by apply (try_push_full rb items).
Qed.

(** C3, as amended - totality and failure reporting.  On every buffer that
    owns its storage (a proper state: any state a constructed buffer reaches
    through the operations, or the target of a move) each operation returns
    normally: [try_push] and [emplace] return [false] exactly when
    [(head + 1) mod Capacity = tail], and then change nothing; [try_pop],
    [try_pop_ip] and [try_consume] fail exactly when [tail = head], and then
    change nothing (the buffer, the output argument and the callback's state
    are as before, and no destructor ran).  On a moved-from buffer the three
    consumer operations return normally too, under the same rule. *)
Theorem operations_total {S : Type} (rb : RingBuffer) (item : T) (args : Args)
    (out : T) (processor : T -> S -> S) (env : S) (log : list event) :
  valid rb \/ rb = moved_from ->
  (valid rb ->
   (exists ok rb',
       try_push item rb log = Ok (ok, rb', log) /\
       (ok = false <-> (_head rb + 1) mod Capacity = _tail rb) /\
       (ok = false -> rb' = rb)) /\
   (exists ok rb',
       emplace args rb log = Ok (ok, rb', log) /\
       (ok = false <-> (_head rb + 1) mod Capacity = _tail rb) /\
       (ok = false -> rb' = rb))) /\
  (exists result rb' log',
      try_pop rb log = Ok (result, rb', log') /\
      (result = None <-> _tail rb = _head rb) /\
      (result = None -> rb' = rb /\ log' = log)) /\
  (exists ok out' rb' log',
      try_pop_ip out rb log = Ok (ok, out', rb', log') /\
      (ok = false <-> _tail rb = _head rb) /\
      (ok = false -> out' = out /\ rb' = rb /\ log' = log)) /\
  (exists ok env' rb' log',
      try_consume processor env rb log = Ok (ok, env', rb', log') /\
      (ok = false <-> _tail rb = _head rb) /\
      (ok = false -> env' = env /\ rb' = rb /\ log' = log)).
Proof using Capacity_pow2 Capacity_gt1 Capacity_size_t.
  intros [Hrb | ->].
  - split; [intros _; split|split; [|split]].
    + destruct (try_push_valid item rb log Hrb) as (ok & rb1 & ? & _ & ? & ?).
      by exists ok, rb1.
    + rewrite emplace_as_try_push.
      destruct (try_push_valid (construct args) rb log Hrb)
        as (ok & rb1 & ? & _ & ? & ?).
      by exists ok, rb1.
    + destruct (try_pop_valid rb log Hrb)
        as (result & rb' & log' & Hpop & _ & Hiff & Hsame).
      by exists result, rb', log'.
    + rewrite try_pop_ip_as_try_consume.
      destruct (try_consume_valid (fun v (_ : T) => v) out rb log Hrb)
        as (ok & out' & rb' & log' & Heq & _ & Hiff & Hsame).
      by exists ok, out', rb', log'.
    + destruct (try_consume_valid processor env rb log Hrb)
        as (ok & env' & rb' & log' & Heq & _ & Hiff & Hsame).
      by exists ok, env', rb', log'.
  - split; [|split; [|split]].
    + intros (q & slots & Hs & _). discriminate Hs.
    + by exists None, moved_from, log.
    + by exists false, out, moved_from, log.
    + by exists false, env, moved_from, log.
Qed.

(** C4 - empty and full exclude each other.  In every state that calls of
    the public interface can bring a new buffer into, [is_empty()] and
    [is_full()] are not both [true]. *)
Theorem empty_full_exclusive (rb : RingBuffer) :
  reachable rb -> ~ (is_empty rb = true /\ is_full rb = true).
Proof using Capacity_pow2 Capacity_gt1 Capacity_size_t.
  intros Hreach [Hempty Hfull].
  destruct (reachable_valid rb Hreach) as [q Hq].
  rewrite (is_empty_holds rb q Hq) in Hempty.
  rewrite (is_full_holds rb q Hq) in Hfull.
  apply bool_decide_eq_true_1 in Hempty, Hfull. lia.
Qed.

(** C10 - cursors stay in bounds.  In every state reachable from a new
    buffer both [head] and [tail] lie in [[0, Capacity)], the array has
    [Capacity] slots, and so the two slot addresses the operations form,
    [get_ptr(head)] and [get_ptr(tail)], are inside the array. *)
Theorem cursors_in_bounds (rb : RingBuffer) :
  reachable rb ->
  0 <= _head rb < Capacity /\
  0 <= _tail rb < Capacity /\
  (exists slots,
      _storage rb = Some slots /\ Z.of_nat (length slots) = Capacity) /\
  (forall log,
      get_ptr (_head rb) rb log = Ok (_head rb, log) /\
      get_ptr (_tail rb) rb log = Ok (_tail rb, log)).
Proof using Capacity_pow2 Capacity_gt1 Capacity_size_t.
  intros Hreach. destruct (reachable_valid rb Hreach) as [q Hq].
  pose proof (holds_head_range rb q Hq) as Hh.
  destruct Hq as (slots & Hs & Hlen & Ht & _).
  repeat split; try lia.
  - by exists slots.
  - unfold get_ptr. rewrite Hs. by rewrite bool_decide_eq_true_2 by lia.
  - unfold get_ptr. rewrite Hs. by rewrite bool_decide_eq_true_2 by lia.
Qed.

Lemma omap_imap {A B C} (g : B -> option C) (f : nat -> A -> B)
  (h : nat -> A -> C) (l : list A) :
(forall k x, g (f k x) = Some (h k x)) -> omap g (imap f l) = imap h l.
Proof using Type.
  revert f h. induction l as [|x l IH]; intros f h Hg; [done|].
  rewrite !imap_cons.
  assert (Hl : omap g (imap (f ∘ S) l) = imap (h ∘ S) l)
    by (apply IH; intros k y; apply Hg).
  simpl. rewrite Hg. f_equal. exact Hl.
Qed.

(** C7 - destruction.  Destroying a proper buffer that holds [N] unread
    elements ends with the loop leaving normally, and the destructor calls it
    made are exactly one [element_ptr->~T()] per resident element, taken in
    order from [tail]: [N] calls, on [N] different slots, after which no slot
    holds a live object. *)
Theorem dtor_destroys_each_once (rb : RingBuffer) (fuel : nat)
  (log : list event) :
valid rb -> (Z.to_nat (count rb) < fuel)%nat ->
let destroyed :=
  imap (fun k v => SlotDtor ((_tail rb + Z.of_nat k) mod Capacity) v)
       (contents rb) in
exists rb',
  RingBuffer_dtor fuel rb log = Ok (rb', log ++ destroyed) /\
  Z.of_nat (length destroyed) = count rb /\
  NoDup (slot_dtors destroyed).*1 /\
  (forall i, slot_at rb' i = None).
Proof using Capacity_pow2 Capacity_gt1 Capacity_size_t.
  intros [q Hq] Hfuel destroyed. subst destroyed.
  rewrite (holds_contents rb q Hq). rewrite (holds_count rb q Hq) in *.
  destruct (dtor_loop_drains q rb fuel log Hq ltac:(lia)) as (rb' & Hrun & Hrb').
  exists rb'. split; [done|]. split; [by rewrite length_imap|]. split.
  - unfold slot_dtors.
    rewrite (omap_imap _ _
      (fun k v => ((_tail rb + Z.of_nat k) mod Capacity, v))) by done.
    apply NoDup_alt. intros i j x Hi Hj.
    rewrite list_lookup_fmap, list_lookup_imap in Hi, Hj.
    destruct (q !! i) as [vi|] eqn:Hqi; [|done].
    destruct (q !! j) as [vj|] eqn:Hqj; [|done].
    apply lookup_lt_Some in Hqi, Hqj. simpl in Hi, Hj.
    injection Hi as Hi. injection Hj as Hj. rewrite <- Hj in Hi.
    destruct Hq as (slots & Hs & Hlen & Ht & Hlq & Hh & Hsl).
    rewrite !mod_Capacity_cases in Hi by lia.
    repeat case_decide; lia.
  - intros i. destruct Hrb' as (slots & Hs & Hlen & Ht & _ & _ & Hsl).
    unfold slot_at. rewrite Hs. case_bool_decide; [|done].
    destruct (decide (i < Capacity)).
    + by rewrite Hsl, lookup_nil by lia.
    + by rewrite lookup_ge_None_2 by lia.
Qed.

Lemma try_consume_as_core {S : Type} (processor : T -> S -> S) env rb log :
  try_consume processor env rb log =
    match try_consume (fun v (_ : option T) => Some v) None rb log with
    | Ok (_, Some v, rb', log') => Ok (true, processor v env, rb', log')
    | Ok (_, None, rb', log') => Ok (false, env, rb', log')
    | Undefined why => Undefined why
    | OutOfFuel => OutOfFuel
    end.
Proof using Type.
  unfold bring.try_consume.
  destruct (_tail rb =? _head rb); [done|].
  unfold bind, get_ptr, move_from, destroy_at, bind, emit, ret, undefined.
  destruct (_storage rb) as [slots|] eqn:Hs; [|done].
  case_bool_decide; [|done].
  destruct (slot_at rb (_tail rb)); done.
Qed.

Lemma slot_dtors_temp (log : list event) v :
  slot_dtors (log ++ [TempDtor v]) = slot_dtors log.
Proof using Type.
  unfold bring.slot_dtors. rewrite omap_app. simpl. by rewrite app_nil_r.
Qed.

(** C8 - the three consumer shapes agree.  On every state [try_pop_ip] and
    [try_consume] do what [try_pop] does: they fail, fault or succeed
    together, on success the value [try_pop] returns is the one written to
    [out] and the one the callback is applied to, and the three leave the
    same buffer, having destroyed the same slot object.  ([try_pop] alone
    also destroys its local [optional]; the logs are compared through the
    slot destructor calls.)  On a proper state the common outcome is a
    normal return delivering the front element, if any. *)
Theorem consumers_equivalent {S : Type} (rb : RingBuffer) (out : T)
    (processor : T -> S -> S) (env : S) (log : list event) :
  match try_pop rb log with
  | Ok (Some v, rb', log') =>
      exists log'',
        try_pop_ip out rb log = Ok (true, v, rb', log'') /\
        try_consume processor env rb log =
          Ok (true, processor v env, rb', log'') /\
        slot_dtors log'' = slot_dtors log'
  | Ok (None, rb', log') =>
      try_pop_ip out rb log = Ok (false, out, rb', log') /\
      try_consume processor env rb log = Ok (false, env, rb', log')
  | Undefined why =>
      try_pop_ip out rb log = Undefined why /\
      try_consume processor env rb log = Undefined why
  | OutOfFuel =>
      try_pop_ip out rb log = OutOfFuel /\
      try_consume processor env rb log = OutOfFuel
  end /\
  (valid rb ->
   exists rb' log', try_pop rb log = Ok (head (contents rb), rb', log')).
Proof using Capacity_pow2 Capacity_gt1 Capacity_size_t.
  split.
  - rewrite try_pop_as_try_consume, try_pop_ip_as_try_consume.
    rewrite (try_consume_as_core (fun v (_ : T) => v) out).
    rewrite (try_consume_as_core processor env).
    destruct (try_consume (fun v (_ : option T) => Some v) None rb log)
      as [[[[ok [v|]] rb'] log']| |]; try done.
    exists log'. by rewrite slot_dtors_temp.
  - intros [q Hq]. rewrite (holds_contents rb q Hq). destruct q as [|v q].
    + rewrite try_pop_empty by done. eauto.
    + destruct (try_pop_front rb v q log Hq) as [-> _]. eauto.
Qed.

(** C9 - frame.  On every buffer state, a call of [try_push] or [emplace]
    that returns, with [true] or with [false], has left [tail] and every
    occupied slot of [[tail, head)] as they were, and a call of [try_pop],
    [try_pop_ip] or [try_consume] that returns, successful or not, has left
    [head] as it was and changed no slot other than the one at [tail].  On a
    proper state all five calls return, and on a moved-from buffer the three
    consumer calls do. *)
Theorem frame_effects {S : Type} (rb : RingBuffer) (item : T) (args : Args)
    (out : T) (processor : T -> S -> S) (env : S) (log : list event) :
  (forall ok rb' log',
      try_push item rb log = Ok (ok, rb', log') ->
      _tail rb' = _tail rb /\
      forall i, occupied rb i -> slot_at rb' i = slot_at rb i) /\
  (forall ok rb' log',
      emplace args rb log = Ok (ok, rb', log') ->
      _tail rb' = _tail rb /\
      forall i, occupied rb i -> slot_at rb' i = slot_at rb i) /\
  (forall result rb' log',
      try_pop rb log = Ok (result, rb', log') ->
      _head rb' = _head rb /\
      forall i, i <> _tail rb -> slot_at rb' i = slot_at rb i) /\
  (forall ok out' rb' log',
      try_pop_ip out rb log = Ok (ok, out', rb', log') ->
      _head rb' = _head rb /\
      forall i, i <> _tail rb -> slot_at rb' i = slot_at rb i) /\
  (forall ok env' rb' log',
      try_consume processor env rb log = Ok (ok, env', rb', log') ->
      _head rb' = _head rb /\
      forall i, i <> _tail rb -> slot_at rb' i = slot_at rb i) /\
  (valid rb ->
   (exists ok rb' log', try_push item rb log = Ok (ok, rb', log')) /\
   (exists ok rb' log', emplace args rb log = Ok (ok, rb', log')) /\
   (exists result rb' log', try_pop rb log = Ok (result, rb', log')) /\
   (exists ok out' rb' log',
       try_pop_ip out rb log = Ok (ok, out', rb', log')) /\
   (exists ok env' rb' log',
       try_consume processor env rb log = Ok (ok, env', rb', log'))) /\
  (rb = moved_from ->
   try_pop rb log = Ok (None, rb, log) /\
   try_pop_ip out rb log = Ok (false, out, rb, log) /\
   try_consume processor env rb log = Ok (false, env, rb, log)).
Proof using Capacity_pow2 Capacity_gt1 Capacity_size_t.
  assert (Hocc : forall i, occupied rb i -> i <> _head rb).
  { intros i [_ Hi] ->. unfold bring.count in Hi. lia. }
  assert (Hpush : forall v ok rb' log',
    try_push v rb log = Ok (ok, rb', log') ->
    _tail rb' = _tail rb /\
    forall i, occupied rb i -> slot_at rb' i = slot_at rb i).
  { intros v ok rb' log' Heq.
    destruct (try_push_frame _ _ _ _ _ _ Heq) as (Ht & _ & Hsl).
    split; [done|]. intros i Hi. apply Hsl. by apply Hocc. }
  split; [apply Hpush|]. split; [apply (Hpush (construct args))|].
  split; [intros result rb' log' Heq; by apply (try_pop_frame _ _ _ _ _ Heq)|].
  split.
  { intros ok out' rb' log' Heq. rewrite try_pop_ip_as_try_consume in Heq.
    by apply (try_consume_frame _ _ _ _ _ _ _ _ Heq). }
  split.
  { intros ok env' rb' log' Heq.
    by apply (try_consume_frame _ _ _ _ _ _ _ _ Heq). }
  split.
  - intros Hrb.
    destruct (try_push_valid item rb log Hrb) as (ok1 & rb1 & Hp1 & _).
    destruct (try_push_valid (construct args) rb log Hrb)
      as (ok2 & rb2 & Hp2 & _).
    destruct (try_pop_valid rb log Hrb) as (res & rb3 & log3 & Hp3 & _).
    destruct (try_consume_valid (fun v (_ : T) => v) out rb log Hrb)
      as (ok4 & out4 & rb4 & log4 & Hp4 & _).
    destruct (try_consume_valid processor env rb log Hrb)
      as (ok5 & env5 & rb5 & log5 & Hp5 & _).
    rewrite <- try_pop_ip_as_try_consume in Hp4.
    repeat split; eauto.
  - by intros ->.
Qed.

(** *** The moved-from state *)

Lemma moved_from_try_pop log : try_pop moved_from log = Ok (None, moved_from, log).
Proof using Type. reflexivity. Qed.

Lemma operator_assign_self fuel (a : nat) (A : RingBuffer) log :
  operator_assign fuel a a A A log = Ok (A, A, log).
Proof using Type.
  unfold operator_assign. by rewrite bool_decide_eq_false_2 by auto.
Qed.

Lemma get_state_exclusive rb : get_state rb <> (true, true).
Proof using Capacity_pow2 Capacity_gt1 Capacity_size_t.
  unfold get_state. rewrite mask_mod. intros [= He Hf].
  apply Z.eqb_eq in He, Hf. rewrite He in Hf.
  pose proof (Z.mod_pos_bound (_head rb + 1) Capacity ltac:(lia)) as Hb.
  rewrite mod_Capacity_cases in Hf by lia. repeat case_decide; lia.
Qed.

(** C6, as amended - move semantics.  Move construction from [A], and move
    assignment from [A] into a different proper buffer [B], give the target
    the state of [A], hence its elements in their order, and leave [A] with
    both cursors at zero and no storage.  On that moved-from buffer the
    queries, the three consumer operations and destruction behave as on a new
    buffer: it is empty, not full, pops fail without any change and
    destruction destroys nothing. *)
Theorem move_transfers_elements {S : Type} (A B : RingBuffer) (a b : nat)
  (fuel : nat) (out : T) (processor : T -> S -> S) (env : S)
  (log : list event) :
valid B -> b <> a -> (Z.to_nat (count B) < fuel)%nat ->
RingBuffer_move_ctor A = (A, moved_from) /\
(exists log',
    operator_assign fuel b a B A log = Ok (A, moved_from, log')) /\
contents moved_from = [] /\
is_empty moved_from = is_empty RingBuffer_ctor /\
is_full moved_from = is_full RingBuffer_ctor /\
(try_pop moved_from log = Ok (None, moved_from, log) /\
 try_pop RingBuffer_ctor log = Ok (None, RingBuffer_ctor, log)) /\
(try_pop_ip out moved_from log = Ok (false, out, moved_from, log) /\
 try_pop_ip out RingBuffer_ctor log = Ok (false, out, RingBuffer_ctor, log)) /\
(try_consume processor env moved_from log = Ok (false, env, moved_from, log) /\
 try_consume processor env RingBuffer_ctor log =
   Ok (false, env, RingBuffer_ctor, log)) /\
(RingBuffer_dtor (Datatypes.S fuel) moved_from log = Ok (moved_from, log) /\
 RingBuffer_dtor (Datatypes.S fuel) RingBuffer_ctor log =
   Ok (RingBuffer_ctor, log)).
Proof using Capacity_pow2 Capacity_gt1 Capacity_size_t.
  intros [q Hq] Hab Hfuel.
  rewrite (holds_count B q Hq) in Hfuel.
  split; [by destruct A|]. split.
  { unfold operator_assign. rewrite bool_decide_eq_true_2 by done.
    destruct (assign_loop_drains q B fuel log Hq ltac:(lia))
      as (B' & log' & Hloop & _).
    exists log'. unfold bind, ret. rewrite Hloop. by destruct A. }
  split; [done|]. split; [done|]. split.
  { unfold is_full. simpl. rewrite !mask_mod. done. }
  split; [done|]. split; [done|]. split; [done|]. done.
Qed.

(** ** Further properties of the operations *)

Lemma valid_not_full rb :
  valid rb -> is_full rb = false ->
  exists q, holds rb q /\ Z.of_nat (length q) < Capacity - 1.
Proof using Capacity_pow2 Capacity_gt1 Capacity_size_t.
  intros [q Hq] Hfull. exists q. split; [done|].
  rewrite (is_full_holds rb q Hq) in Hfull.
  apply bool_decide_eq_false_1 in Hfull.
  destruct Hq as (? & ? & ? & ? & ? & ?). lia.
Qed.

Lemma valid_empty rb : valid rb -> is_empty rb = true -> holds rb [].
Proof using Capacity_gt1.
  intros [q Hq] Hempty. rewrite (is_empty_holds rb q Hq) in Hempty.
  apply bool_decide_eq_true_1 in Hempty.
  by destruct q.
Qed.

Lemma push_effect rb q item log :
  holds rb q -> Z.of_nat (length q) < Capacity - 1 ->
  exists rb',
    try_push item rb log = Ok (true, rb', log) /\ holds rb' (q ++ [item]) /\
    _head rb' = (_head rb + 1) mod Capacity /\ _tail rb' = _tail rb /\
    slot_at rb' (_head rb) = Some item.
Proof using Capacity_pow2 Capacity_gt1 Capacity_size_t.
  intros Hq Hlen.
  destruct (try_push_room rb q item log Hq Hlen) as [Hpush Hrb'].
  eexists. split; [exact Hpush|]. split; [exact Hrb'|].
  split; [done|]. split; [done|].
  pose proof (holds_head_range rb q Hq) as Hh.
  destruct Hq as (slots & Hs & Hl & _).
  unfold slot_at, store_head, placement_new, set_slot. simpl. rewrite Hs. simpl.
  rewrite bool_decide_eq_true_2 by lia.
  by rewrite list_lookup_insert_eq by lia.
Qed.

Lemma pop_effect rb v q log :
  holds rb (v :: q) ->
  exists rb',
    try_pop rb log =
      Ok (Some v, rb', (log ++ [SlotDtor (_tail rb) v]) ++ [TempDtor v]) /\
    holds rb' q /\
    _tail rb' = (_tail rb + 1) mod Capacity /\ _head rb' = _head rb /\
    slot_at rb' (_tail rb) = None /\
    (forall out,
        try_pop_ip out rb log =
          Ok (true, v, rb', log ++ [SlotDtor (_tail rb) v])) /\
    (forall (S : Type) (processor : T -> S -> S) env,
        try_consume processor env rb log =
          Ok (true, processor v env, rb', log ++ [SlotDtor (_tail rb) v])).
Proof using Capacity_pow2 Capacity_gt1 Capacity_size_t.
  intros Hq.
  destruct (try_pop_front rb v q log Hq) as [Hpop Hrb'].
  eexists. split; [exact Hpop|]. split; [exact Hrb'|].
  split; [done|]. split; [done|]. split; [|split].
  - destruct Hq as (slots & Hs & Hl & Ht & _).
    unfold slot_at, store_tail, set_slot. simpl. rewrite Hs. simpl.
    rewrite bool_decide_eq_true_2 by lia.
    by rewrite list_lookup_insert_eq by lia.
  - intros out. by apply (try_pop_ip_front out rb v q log Hq).
  - intros S processor env.
    by apply (try_consume_front processor env rb v q log Hq).
Qed.

Lemma slot_dtors_app (log1 log2 : list event) :
  slot_dtors (log1 ++ log2) = slot_dtors log1 ++ slot_dtors log2.
Proof using Type. unfold bring.slot_dtors. by rewrite omap_app. Qed.

(** X1 - what a successful push does.  On a proper buffer that is not full,
    [try_push] and [emplace] return [true] without touching the destructor
    log; the element becomes the newest of the buffer (the contents grow by it
    at the back), it is the object now living in the slot [head] pointed at,
    and [head] moves on by one slot, back to 0 after [Capacity - 1]. *)
Theorem try_push_appends (rb : RingBuffer) (item : T) (args : Args)
    (log : list event) :
  valid rb -> is_full rb = false ->
  (exists rb',
      try_push item rb log = Ok (true, rb', log) /\ valid rb' /\
      contents rb' = contents rb ++ [item] /\
      _head rb' = (_head rb + 1) mod Capacity /\ _tail rb' = _tail rb /\
      slot_at rb' (_head rb) = Some item) /\
  (exists rb',
      emplace args rb log = Ok (true, rb', log) /\ valid rb' /\
      contents rb' = contents rb ++ [construct args] /\
      _head rb' = (_head rb + 1) mod Capacity /\ _tail rb' = _tail rb /\
      slot_at rb' (_head rb) = Some (construct args)).
Proof using Capacity_pow2 Capacity_gt1 Capacity_size_t.
  intros Hrb Hfull.
  destruct (valid_not_full rb Hrb Hfull) as (q & Hq & Hlen).
  rewrite (holds_contents rb q Hq).
  split; [destruct (push_effect rb q item log Hq Hlen)
            as (rb' & Hpush & Hrb' & Hh & Ht & Hs)
         |rewrite emplace_as_try_push;
          destruct (push_effect rb q (construct args) log Hq Hlen)
            as (rb' & Hpush & Hrb' & Hh & Ht & Hs)];
    (exists rb'; split; [done|]; split; [by eexists|];
     split; [by apply holds_contents|done]).
Qed.


(** X3 - the queries count elements.  On a proper buffer the number of
    elements held is [(head - tail) mod Capacity], at most [Capacity - 1];
    [is_empty()] is [true] exactly when no element is held and [is_full()]
    exactly when [Capacity - 1] are. *)
Theorem queries_count_elements (rb : RingBuffer) :
  valid rb ->
  Z.of_nat (length (contents rb)) = count rb /\
  count rb <= Capacity - 1 /\
  (is_empty rb = true <-> contents rb = []) /\
  (is_full rb = true <-> Z.of_nat (length (contents rb)) = Capacity - 1).
Proof using Capacity_pow2 Capacity_gt1 Capacity_size_t.
  intros [q Hq].
  rewrite (holds_contents rb q Hq), (holds_count rb q Hq).
  rewrite (is_empty_holds rb q Hq), (is_full_holds rb q Hq).
  rewrite !bool_decide_eq_true.
  destruct Hq as (? & ? & ? & ? & ? & ?).
  repeat split; try lia; try done.
  - by destruct q.
  - by intros ->.
Qed.

(** X4 - live objects are the occupied range.  In every state reachable from
    a new buffer, a slot holds a live object exactly when it lies in the
    circular range [[tail, head)]; in particular the slot at [head], where
    the next push constructs, holds none. *)
Theorem live_objects_are_occupied_range (rb : RingBuffer) :
  reachable rb ->
  (forall i, 0 <= i < Capacity -> is_Some (slot_at rb i) <-> occupied rb i) /\
  slot_at rb (_head rb) = None.
Proof using Capacity_pow2 Capacity_gt1 Capacity_size_t.
  intros Hreach. destruct (reachable_valid rb Hreach) as [q Hq].
  pose proof (holds_head_range rb q Hq) as Hh.
  pose proof (holds_count rb q Hq) as Hc.
  destruct Hq as (slots & Hs & Hl & Ht & Hlen & Hhd & Hsl).
  assert (Hat : forall i, 0 <= i < Capacity ->
            slot_at rb i = q !! Z.to_nat ((i - _tail rb) mod Capacity)).
  { intros i Hi. unfold slot_at. rewrite Hs.
    rewrite bool_decide_eq_true_2 by lia. by rewrite Hsl. }
  split.
  - intros i Hi. rewrite (Hat i Hi). unfold occupied. rewrite Hc.
    pose proof (Z.mod_pos_bound (i - _tail rb) Capacity ltac:(lia)).
    rewrite lookup_lt_is_Some. split; [intros; split; lia|intros [_ ?]; lia].
  - rewrite (Hat _ Hh). apply lookup_ge_None_2.
    unfold count in Hc. rewrite Hc. lia.
Qed.

(** *** The destructor log of a run *)

Lemma destroyed_app log1 log2 :
  destroyed (log1 ++ log2) = destroyed log1 ++ destroyed log2.
Proof using Type.
  unfold bring.destroyed, bring.slot_dtors. by rewrite omap_app, fmap_app.
Qed.

Lemma destroyed_slot_dtors (q : list T) : forall f : nat -> Z,
  destroyed (imap (fun k v => SlotDtor (f k) v) q) = q.
Proof using Type.
  induction q as [|v q IH]; intros f; [done|].
  rewrite imap_cons.
  change (destroyed (SlotDtor (f 0%nat) v ::
            imap ((fun k v => SlotDtor (f k) v) ∘ Datatypes.S) q))
    with (v :: destroyed (imap (fun k v => SlotDtor (f (Datatypes.S k)) v) q)).
  by rewrite IH.
Qed.

Lemma try_consume_log {S : Type} (processor : T -> S -> S) env rb log
    ok env' rb' log' :
  try_consume processor env rb log = Ok (ok, env', rb', log') ->
  (ok = false /\ env' = env /\ log' = log) \/
  (exists v, ok = true /\ env' = processor v env /\
             log' = log ++ [SlotDtor (_tail rb) v]).
Proof using Type.
  unfold bring.try_consume.
  destruct (_tail rb =? _head rb); [intros [= <- <- _ <-]; by left|].
  unfold bind, get_ptr, move_from, destroy_at, bind, emit, ret, undefined.
  destruct (_storage rb) as [slots|] eqn:Hs; [|done].
  case_bool_decide as Hb; [|done].
  destruct (slot_at rb (_tail rb)) as [v|]; [|done].
  intros [= <- <- _ <-]. right. by exists v.
Qed.

Lemma destroyed_slot (log : list event) i v :
  destroyed (log ++ [SlotDtor i v]) = destroyed log ++ [v].
Proof using Type. by rewrite destroyed_app. Qed.

Lemma destroyed_temp (log : list event) v :
  destroyed (log ++ [TempDtor v]) = destroyed log.
Proof using Type. rewrite destroyed_app. simpl. by rewrite app_nil_r. Qed.

Lemma try_pop_log rb log result rb' log' :
  try_pop rb log = Ok (result, rb', log') ->
  destroyed log' = destroyed log ++ option_list result.
Proof using Type.
  rewrite try_pop_as_try_consume.
  destruct (try_consume (fun v (_ : option T) => Some v) None rb log)
    as [[[[ok env'] rb1] log1]| |] eqn:Hc; [|done..].
  apply try_consume_log in Hc as [(-> & -> & ->)|(v & -> & -> & ->)].
  - intros [= <- _ <-]. by rewrite app_nil_r.
  - intros [= <- _ <-]. by rewrite destroyed_temp, destroyed_slot.
Qed.

Lemma call_destroyed o rb log r rb' log' :
  call o rb log = Ok (r, rb', log') ->
  destroyed log' = destroyed log ++ popped_value r.
Proof using Type.
  destruct o as [item|args| |out| | |]; simpl; unfold bind, ret.
  - destruct (try_push item rb log) as [[[ok rb1] log1]| |] eqn:Hp; [|done..].
    apply try_push_frame in Hp as (_ & -> & _).
    intros [= <- _ <-]. by rewrite app_nil_r.
  - rewrite emplace_as_try_push.
    destruct (try_push (construct args) rb log)
      as [[[ok rb1] log1]| |] eqn:Hp; [|done..].
    apply try_push_frame in Hp as (_ & -> & _).
    intros [= <- _ <-]. by rewrite app_nil_r.
  - destruct (try_pop rb log) as [[[res rb1] log1]| |] eqn:Hp; [|done..].
    apply try_pop_log in Hp. intros [= <- _ <-]. by destruct res.
  - rewrite try_pop_ip_as_try_consume.
    destruct (try_consume (fun v (_ : T) => v) out rb log)
      as [[[[ok out'] rb1] log1]| |] eqn:Hp; [|done..].
    apply try_consume_log in Hp as [(-> & -> & ->)|(v & -> & -> & ->)];
      intros [= <- _ <-]; [by rewrite app_nil_r|by rewrite destroyed_slot].
  - destruct (try_consume (fun v (seen : list T) => seen ++ [v]) [] rb log)
      as [[[[ok seen] rb1] log1]| |] eqn:Hp; [|done..].
    apply try_consume_log in Hp as [(-> & -> & ->)|(v & -> & -> & ->)];
      intros [= <- _ <-]; [by rewrite app_nil_r|by rewrite destroyed_slot].
  - intros [= <- _ <-]. by rewrite app_nil_r.
  - intros [= <- _ <-]. by rewrite app_nil_r.
Qed.

Lemma run_destroyed ops : forall rb log rs rb' log',
  run ops rb log = Ok (rs, rb', log') ->
  destroyed log' = destroyed log ++ pops rs.
Proof using Type.
  induction ops as [|o ops IH]; intros rb log rs rb' log' Hrun.
  - injection Hrun as <- _ <-. by rewrite app_nil_r.
  - simpl in Hrun. unfold bind at 1 in Hrun.
    destruct (call o rb log) as [[[r rb1] log1]| |] eqn:Hcall; try done.
    unfold bind at 1 in Hrun.
    destruct (run ops rb1 log1) as [[[rs1 rb2] log2]| |] eqn:Hrun1; try done.
    injection Hrun as <- _ <-.
    rewrite (IH _ _ _ _ _ Hrun1), (call_destroyed _ _ _ _ _ _ Hcall).
    unfold bring.pops. simpl. by rewrite app_assoc.
Qed.

(** X5 - one destructor call per pushed element.  Over the life of a buffer
    (construction, any calls of its interface, destruction) no call faults;
    before destruction the slot objects destroyed are exactly the elements
    popped, in order, and once the destructor has run they are exactly the
    elements successfully pushed, in order: none twice, none left alive. *)
Theorem pushed_elements_destroyed_once (ops : list op) (fuel : nat) :
  exists rs rb log,
    run ops RingBuffer_ctor [] = Ok (rs, rb, log) /\
    destroyed log = pops rs /\
    ((Z.to_nat (count rb) < fuel)%nat ->
     exists rb' log',
       RingBuffer_dtor fuel rb log = Ok (rb', log') /\
       destroyed log' = pushes ops rs /\
       forall i, slot_at rb' i = None).
Proof using Capacity_pow2 Capacity_gt1 Capacity_size_t.
  destruct (run_refines ops RingBuffer_ctor [] [] holds_ctor)
    as (rs & rb & log & q & Hrun & Hq & Horder & _).
  exists rs, rb, log. split; [done|].
  pose proof (run_destroyed _ _ _ _ _ _ Hrun) as Hlog. simpl in Hlog.
  split; [done|]. intros Hfuel. rewrite (holds_count rb q Hq) in Hfuel.
  destruct (dtor_loop_drains q rb fuel log Hq ltac:(lia))
    as (rb' & Hdtor & Hrb').
  eexists rb', _. split; [exact Hdtor|]. split.
  - rewrite destroyed_app, destroyed_slot_dtors, Hlog. by simpl in Horder.
  - intros i. destruct Hrb' as (slots & Hs & Hlen & Ht & _ & _ & Hsl).
    unfold slot_at. rewrite Hs. case_bool_decide; [|done].
    destruct (decide (i < Capacity)).
    + by rewrite Hsl, lookup_nil by lia.
    + by rewrite lookup_ge_None_2 by lia.
Qed.

(** *** Move assignment *)

Lemma imap_pair_snd (q : list T) : forall f : nat -> Z,
  (imap (fun k v => (f k, v)) q).*2 = q.
Proof using Type.
  induction q as [|v q IH]; intros f; [done|].
  rewrite imap_cons, fmap_cons. simpl. f_equal.
  apply (IH (fun k => f (Datatypes.S k))).
Qed.

Lemma assign_loop_log q : forall rb fuel log,
  holds rb q -> (length q < fuel)%nat ->
  exists rb' log',
    assign_loop fuel rb log = Ok (rb', log') /\
    slot_dtors log' =
      slot_dtors log ++
      imap (fun k v => ((_tail rb + Z.of_nat k) mod Capacity, v)) q /\
    holds rb' [].
Proof using Capacity_pow2 Capacity_gt1 Capacity_size_t.
  induction q as [|v q IH]; intros rb fuel log Hrb Hfuel;
    (destruct fuel as [|fuel]; [simpl in Hfuel; lia|]); simpl assign_loop.
  - exists rb, log. unfold bind. rewrite try_pop_empty by done.
    simpl. by rewrite app_nil_r.
  - unfold bind. destruct (try_pop_front rb v q log Hrb) as [-> Hrb'].
    unfold destroy_optional, emit.
    destruct (IH _ fuel
                (((log ++ [SlotDtor (_tail rb) v]) ++ [TempDtor v]) ++
                 [TempDtor v]) Hrb')
      as (rb' & log' & -> & Hlog & Hrb''); [simpl in Hfuel; lia|].
    exists rb', log'. split; [done|]. split; [|done].
    rewrite Hlog, !slot_dtors_temp, slot_dtors_app, imap_cons, <- app_assoc.
    simpl.
    assert (Ht : 0 <= _tail rb < Capacity)
      by (destruct Hrb as (? & ? & ? & ? & ?); done).
    rewrite Z.add_0_r, (Z.mod_small (_tail rb)) by done.
    do 2 f_equal. apply imap_ext.
    intros k x _. simpl. rewrite Zplus_mod_idemp_l. do 2 f_equal. lia.
Qed.

(** X6 - move assignment cleans the target.  Move-assigning into a different
    proper buffer [B] first pops every element [B] holds, oldest first: each
    slot object of [B] is destroyed exactly once, in the order of the slots
    from [tail], and only then does [B] take the state of the source. *)
Theorem move_assign_destroys_target (A B : RingBuffer) (a b : nat)
    (fuel : nat) (log : list event) :
  valid B -> b <> a -> (Z.to_nat (count B) < fuel)%nat ->
  exists log',
    operator_assign fuel b a B A log = Ok (A, moved_from, log') /\
    slot_dtors log' =
      slot_dtors log ++
      imap (fun k v => ((_tail B + Z.of_nat k) mod Capacity, v))
           (contents B) /\
    destroyed log' = destroyed log ++ contents B.
Proof using Capacity_pow2 Capacity_gt1 Capacity_size_t.
  intros [q Hq] Hab Hfuel. rewrite (holds_count B q Hq) in Hfuel.
  rewrite (holds_contents B q Hq).
  destruct (assign_loop_log q B fuel log Hq ltac:(lia))
    as (B' & log' & Hloop & Hlog & _).
  exists log'. split; [|split; [done|]].
  - unfold bring.operator_assign. rewrite bool_decide_eq_true_2 by done.
    unfold bind, ret. rewrite Hloop. by destruct A.
  - unfold bring.destroyed. by rewrite Hlog, fmap_app, imap_pair_snd.
Qed.

(** X7 - moving out and back.  Move-constructing a buffer from [A] and then
    move-assigning that buffer back into the moved-from [A] restores the
    state [A] had, storage included; the intermediate buffer is the one left
    moved-from, and no destructor runs. *)
Theorem move_round_trip (A : RingBuffer) (a b : nat) (fuel : nat)
    (log : list event) :
  a <> b ->
  operator_assign (Datatypes.S fuel) a b
    (RingBuffer_move_ctor A).2 (RingBuffer_move_ctor A).1 log =
  Ok (A, moved_from, log).
Proof using Type.
  intros Hab. unfold bring.operator_assign.
  rewrite bool_decide_eq_true_2 by done. by destruct A.
Qed.

(** *** The loops of the callers *)

Lemma push_loop_room value n : forall i rb q log,
  holds rb q ->
  Z.of_nat (length q) + Z.of_nat n <= Capacity - 1 ->
  exists rb',
    push_loop value n i rb log = Ok (rb', log) /\
    holds rb' (q ++ (value <$> seqZ i (Z.of_nat n))) /\
    _tail rb' = _tail rb.
Proof using Capacity_pow2 Capacity_gt1 Capacity_size_t.
  induction n as [|n IH]; intros i rb q log Hq Hlen.
  - exists rb. simpl. by rewrite app_nil_r.
  - destruct (push_effect rb q (value i) log Hq ltac:(lia))
      as (rb1 & Hpush & Hrb1 & _ & Ht & _).
    destruct (IH (i + 1) rb1 _ log Hrb1) as (rb' & Hloop & Hrb' & Ht').
    { rewrite length_app. simpl. lia. }
    exists rb'. split; [|split; [|congruence]].
    + simpl. unfold bind. by rewrite Hpush.
    + rewrite seqZ_cons by lia. rewrite <- app_assoc in Hrb'. simpl.
      replace (Z.pred (Z.of_nat (Datatypes.S n))) with (Z.of_nat n) by lia.
      done.
Qed.

Lemma pop_loop_front q1 : forall q2 rb log,
  holds rb (q1 ++ q2) ->
  exists rb' log',
    pop_loop (length q1) rb log = Ok (rb', log') /\
    holds rb' q2 /\
    destroyed log' = destroyed log ++ q1 /\
    _tail rb' = (_tail rb + Z.of_nat (length q1)) mod Capacity.
Proof using Capacity_pow2 Capacity_gt1 Capacity_size_t.
  induction q1 as [|v q1 IH]; intros q2 rb log Hq.
  - exists rb, log. simpl. rewrite app_nil_r, Z.add_0_r.
    pose proof Hq as (? & ? & ? & Ht & ?). by rewrite Z.mod_small.
  - destruct (pop_effect rb v (q1 ++ q2) log Hq)
      as (rb1 & Hpop & Hrb1 & Ht & _).
    destruct (IH q2 rb1 ((log ++ [SlotDtor (_tail rb) v]) ++ [TempDtor v])
                Hrb1)
      as (rb' & log' & Hloop & Hrb' & Hlog & Ht').
    exists rb', log'. split; [|split; [done|split]].
    + simpl. unfold bind. by rewrite Hpop.
    + rewrite Hlog, destroyed_temp, destroyed_slot, <- app_assoc. done.
    + rewrite Ht', Ht, Zplus_mod_idemp_l. f_equal. simpl length. lia.
Qed.

Lemma fill_drain_rounds_holds value iterations : forall rb log,
  holds rb [] ->
  exists rb' log',
    fill_drain_rounds value iterations rb log = Ok (rb', log') /\
    holds rb' [] /\
    destroyed log' =
      destroyed log ++
      concat (replicate iterations (value <$> seqZ 0 (Capacity - 1))) /\
    _tail rb' =
      (_tail rb + Z.of_nat iterations * (Capacity - 1)) mod Capacity.
Proof using Capacity_pow2 Capacity_gt1 Capacity_size_t.
  induction iterations as [|n IH]; intros rb log Hrb.
  - exists rb, log. simpl. rewrite app_nil_r, Z.add_0_r.
    pose proof Hrb as (? & ? & ? & Ht & ?). by rewrite Z.mod_small.
  - destruct (push_loop_room value (Z.to_nat (Capacity - 1)) 0 rb [] log Hrb)
      as (rb1 & Hfill & Hrb1 & Ht1); [simpl; lia|].
    rewrite Z2Nat.id in Hrb1 by lia. simpl in Hrb1.
    set (round := value <$> seqZ 0 (Capacity - 1)) in *.
    assert (Hround : length round = Z.to_nat (Capacity - 1))
      by (subst round; rewrite length_fmap, length_seqZ; done).
    rewrite <- (app_nil_r round) in Hrb1.
    destruct (pop_loop_front round [] rb1 log Hrb1)
      as (rb2 & log2 & Hdrain & Hrb2 & Hlog2 & Ht2).
    destruct (IH rb2 log2 Hrb2) as (rb' & log' & Hrest & Hrb' & Hlog' & Ht').
    exists rb', log'. split; [|split; [done|split]].
    + simpl. unfold bind. rewrite Hfill. rewrite <- Hround, Hdrain. done.
    + rewrite Hlog', Hlog2. simpl. by rewrite <- app_assoc.
    + rewrite Ht', Ht2, Ht1, Hround, Zplus_mod_idemp_l. f_equal. lia.
Qed.

Lemma push_loop_saturates value n : forall i rb q log,
  holds rb q ->
  exists rb',
    push_loop value n i rb log = Ok (rb', log) /\
    holds rb' (q ++ take (Z.to_nat (Capacity - 1) - length q)
                     (value <$> seqZ i (Z.of_nat n))).
Proof using Capacity_pow2 Capacity_gt1 Capacity_size_t.
  induction n as [|n IH]; intros i rb q log Hq.
  - exists rb. simpl. by rewrite take_nil, app_nil_r.
  - assert (Hlen : Z.of_nat (length q) < Capacity)
      by (destruct Hq as (? & ? & ? & ? & ? & ?); lia).
    rewrite (seqZ_cons i) by lia.
    replace (Z.pred (Z.of_nat (Datatypes.S n))) with (Z.of_nat n) by lia.
    simpl push_loop. unfold bind.
    destruct (decide (Z.of_nat (length q) = Capacity - 1)) as [Hfull|Hroom].
    + rewrite (try_push_full rb q) by done.
      destruct (IH (i + 1) rb q log Hq) as (rb' & Hloop & Hrb').
      exists rb'. split; [done|].
      replace (Z.to_nat (Capacity - 1) - length q)%nat with 0%nat in * by lia.
      by rewrite take_0 in *.
    + destruct (push_effect rb q (value i) log Hq ltac:(lia))
        as (rb1 & -> & Hrb1 & _).
      destruct (IH (i + 1) rb1 _ log Hrb1) as (rb' & Hloop & Hrb').
      exists rb'. split; [done|].
      rewrite length_app, <- app_assoc in Hrb'. simpl in Hrb'.
      replace (Z.to_nat (Capacity - 1) - length q)%nat
        with (Datatypes.S (Z.to_nat (Capacity - 1) - (length q + 1)))%nat
        by lia.
      done.
Qed.

(** X12 - overfilling drops the newest.  A run of [try_push] calls with the
    flags ignored, on a proper buffer, never faults and never overwrites:
    the elements already held stay, the values are taken in order while
    there is room, and every value offered once [Capacity - 1] elements are
    held is dropped. *)
Theorem push_loop_drops_overflow (value : Z -> T) (n : nat) (i : Z)
    (rb : RingBuffer) (log : list event) :
  valid rb ->
  exists rb',
    push_loop value n i rb log = Ok (rb', log) /\ valid rb' /\
    contents rb' =
      contents rb ++ take (Z.to_nat (Capacity - 1) - length (contents rb))
                      (value <$> seqZ i (Z.of_nat n)).
Proof using Capacity_pow2 Capacity_gt1 Capacity_size_t.
  intros [q Hq]. rewrite (holds_contents rb q Hq).
  destruct (push_loop_saturates value n i rb q log Hq) as (rb' & Hloop & Hrb').
  exists rb'. split; [done|]. split; [by eexists|by apply holds_contents].
Qed.

Lemma pop_loop_exhausts n : forall rb q log,
  holds rb q ->
  exists rb' log',
    pop_loop n rb log = Ok (rb', log') /\
    holds rb' (drop n q) /\
    destroyed log' = destroyed log ++ take n q.
Proof using Capacity_pow2 Capacity_gt1 Capacity_size_t.
  induction n as [|n IH]; intros rb q log Hq.
  - exists rb, log. simpl. by rewrite drop_0, app_nil_r.
  - simpl pop_loop. unfold bind. destruct q as [|v q].
    + rewrite try_pop_empty by done.
      destruct (IH rb [] log Hq) as (rb' & log' & Hloop & Hrb' & Hlog).
      exists rb', log'. by rewrite drop_nil, take_nil in *.
    + destruct (pop_effect rb v q log Hq) as (rb1 & -> & Hrb1 & _).
      destruct (IH rb1 q ((log ++ [SlotDtor (_tail rb) v]) ++ [TempDtor v])
                  Hrb1)
        as (rb' & log' & Hloop & Hrb' & Hlog).
      exists rb', log'. split; [done|]. split; [done|].
      rewrite Hlog, destroyed_temp, destroyed_slot, <- app_assoc. done.
Qed.

(** X13 - popping past the end is harmless.  A run of [n] [try_pop] calls
    with the results ignored, on a proper buffer, never faults: it takes out
    and destroys the [n] oldest elements, or all of them when fewer are held,
    and the calls made on the buffer once it is empty change nothing. *)
Theorem pop_loop_stops_at_empty (n : nat) (rb : RingBuffer)
    (log : list event) :
  valid rb ->
  exists rb' log',
    pop_loop n rb log = Ok (rb', log') /\ valid rb' /\
    contents rb' = drop n (contents rb) /\
    destroyed log' = destroyed log ++ take n (contents rb).
Proof using Capacity_pow2 Capacity_gt1 Capacity_size_t.
  intros [q Hq]. rewrite (holds_contents rb q Hq).
  destruct (pop_loop_exhausts n rb q log Hq) as (rb' & log' & Hloop & Hrb' & Hlog).
  exists rb', log'. split; [done|]. split; [by eexists|].
  split; [by apply holds_contents|done].
Qed.

(** X9 - fill and drain.  The benchmark's rounds, started on an empty proper
    buffer, never fault and never lose a value: in every round each of the
    [Capacity - 1] pushes is accepted and each of the [Capacity - 1] pops
    takes out one element, so the elements destroyed are the values of the
    rounds in order, the buffer is empty again after every round, and [tail]
    has moved by [Capacity - 1] slots per round. *)
Theorem fill_drain_rounds_complete (value : Z -> T) (iterations : nat)
    (rb : RingBuffer) (log : list event) :
  valid rb -> is_empty rb = true ->
  exists rb' log',
    fill_drain_rounds value iterations rb log = Ok (rb', log') /\
    valid rb' /\ is_empty rb' = true /\
    destroyed log' =
      destroyed log ++
      concat (replicate iterations (value <$> seqZ 0 (Capacity - 1))) /\
    _tail rb' =
      (_tail rb + Z.of_nat iterations * (Capacity - 1)) mod Capacity.
Proof using Capacity_pow2 Capacity_gt1 Capacity_size_t.
  intros Hrb Hempty. pose proof (valid_empty rb Hrb Hempty) as Hq.
  destruct (fill_drain_rounds_holds value iterations rb log Hq)
    as (rb' & log' & Hrun & Hrb' & Hlog & Ht).
  exists rb', log'. split; [done|]. split; [by eexists|].
  split; [by rewrite (is_empty_holds rb' [] Hrb')|done].
Qed.

Lemma push_pop_loop_holds value equal n : forall i rb log,
  (forall x, equal x x = true) ->
  holds rb [] ->
  exists rb' log',
    push_pop_loop value equal n i rb log = Ok (true, rb', log') /\
    holds rb' [] /\
    destroyed log' = destroyed log ++ (value <$> seqZ i (Z.of_nat n)) /\
    _tail rb' = (_tail rb + Z.of_nat n) mod Capacity.
Proof using Capacity_pow2 Capacity_gt1 Capacity_size_t.
  induction n as [|n IH]; intros i rb log Heq Hrb.
  - exists rb, log. simpl. rewrite app_nil_r, Z.add_0_r.
    pose proof Hrb as (? & ? & ? & Ht & ?). by rewrite Z.mod_small.
  - destruct (push_effect rb [] (value i) log Hrb ltac:(simpl; lia))
      as (rb1 & Hpush & Hrb1 & _ & Ht1 & _).
    destruct (pop_effect rb1 (value i) [] log Hrb1)
      as (rb2 & Hpop & Hrb2 & Ht2 & _).
    destruct (IH (i + 1) rb2
                ((log ++ [SlotDtor (_tail rb1) (value i)]) ++
                 [TempDtor (value i)]) Heq Hrb2)
      as (rb' & log' & Hloop & Hrb' & Hlog & Ht').
    exists rb', log'. split; [|split; [done|split]].
    + simpl. unfold bind. rewrite Hpush, Hpop, Heq. done.
    + rewrite Hlog, destroyed_temp, destroyed_slot, (seqZ_cons i), <- app_assoc
        by lia.
      simpl.
      replace (Z.pred (Z.of_nat (Datatypes.S n))) with (Z.of_nat n) by lia.
      done.
    + rewrite Ht', Ht2, Ht1, Zplus_mod_idemp_l. f_equal. lia.
Qed.

(** X10 - the stress loop passes.  Pushing a value and popping right away,
    any number of times on an empty proper buffer, never faults and never
    fails a [REQUIRE]: every pop delivers a value, the one just pushed; the
    buffer is empty after every iteration and [tail] has moved by one slot
    per iteration, wrapping around [Capacity]. *)
Theorem push_pop_loop_passes (value : Z -> T) (equal : T -> T -> bool)
    (n : nat) (i : Z) (rb : RingBuffer) (log : list event) :
  (forall x, equal x x = true) -> valid rb -> is_empty rb = true ->
  exists rb' log',
    push_pop_loop value equal n i rb log = Ok (true, rb', log') /\
    valid rb' /\ is_empty rb' = true /\
    destroyed log' = destroyed log ++ (value <$> seqZ i (Z.of_nat n)) /\
    _tail rb' = (_tail rb + Z.of_nat n) mod Capacity.
Proof using Capacity_pow2 Capacity_gt1 Capacity_size_t.
  intros Heq Hrb Hempty. pose proof (valid_empty rb Hrb Hempty) as Hq.
  destruct (push_pop_loop_holds value equal n i rb log Heq Hq)
    as (rb' & log' & Hrun & Hrb' & Hlog & Ht).
  exists rb', log'. split; [done|]. split; [by eexists|].
  split; [by rewrite (is_empty_holds rb' [] Hrb')|done].
Qed.


End Properties.

(** ** Concrete runs: [RingBuffer<int, 4>] *)

Example capacity_4_scenario :
  run 4 id [Push 1; Push 2; Push 3; Push 4; Pop; Push 4; Pop; Pop; Pop;
            IsEmpty; Pop] (RingBuffer_ctor 4) [] =
  Ok ([Pushed true; Pushed true; Pushed true; Pushed false; Popped (Some 1);
       Pushed true; Popped (Some 2); Popped (Some 3); Popped (Some 4);
       Flag true; Popped None],
      {| _head := 0; _tail := 0; _storage := Some [None; None; None; None] |},
      [SlotDtor 0 1; TempDtor 1; SlotDtor 1 2; TempDtor 2;
       SlotDtor 2 3; TempDtor 3; SlotDtor 3 4; TempDtor 4]).
Proof. reflexivity. Qed.

Example wrapping_ops_run :
  run 4 id wrapping_ops (RingBuffer_ctor 4) [] =
  Ok ([Pushed true; Pushed true; Pushed true; Popped (Some 1);
       PoppedIp true 2; Consumed true [3]; Pushed true; Pushed true],
      wrapped, [SlotDtor 0 1; TempDtor 1; SlotDtor 1 2; SlotDtor 2 3]).
Proof. reflexivity. Qed.

Lemma wrapped_valid : valid 4 wrapped.
Proof.
  exists [20; 30], [Some 30; None; None; Some 20].
  repeat split; try done.
  intros i Hi.
  assert (i = 0 \/ i = 1 \/ i = 2 \/ i = 3) as [->|[->|[->| ->]]] by lia;
    reflexivity.
Qed.

Lemma wrapped_reachable : reachable 4 id wrapped.
Proof.
  eapply (run_reachable 4 id wrapping_ops (RingBuffer_ctor 4) []).
  - apply reachable_ctor.
  - reflexivity.
Qed.


(** ** The callers *)

Lemma fuzz_loop_valid (out : Z) (data : list byte) :
  forall (i : Z) (buffer : @RingBuffer Z) (log : list event),
    valid 16 buffer ->
    exists buffer' log',
      fuzz_loop out data i buffer log = Ok (buffer', log') /\
      valid 16 buffer'.
Proof.
  induction data as [|b data IH]; intros i buffer log Hb.
  - by exists buffer, log.
  - assert (Hpush : forall item, exists buffer1,
              bind (try_push 16 item buffer)
                   (fun '(_, buffer) => ret buffer) log = Ok (buffer1, log) /\
              valid 16 buffer1).
    { intros item.
      destruct (try_push_valid 16 eq_refl ltac:(lia) ltac:(lia) item buffer log Hb)
        as (ok & buffer1 & Heq & Hb1 & _).
      exists buffer1. unfold bind, ret. by rewrite Heq. }
    destruct (try_pop_valid 16 eq_refl ltac:(lia) ltac:(lia) buffer log Hb)
      as (result & buffer2 & log2 & Hpop & Hb2 & _).
    destruct (try_consume_valid 16 eq_refl ltac:(lia) ltac:(lia)
                (fun v (_ : Z) => v) out buffer log Hb)
      as (ok3 & out3 & buffer3 & log3 & Hpop_ip & Hb3 & _).
    simpl fuzz_loop. unfold bind at 1.
    destruct (Z.of_N (Byte.to_N b) mod 4 =? 0).
    { destruct (Hpush (static_cast_uint32_t i)) as (buffer1 & -> & Hb1).
      by apply IH. }
    destruct (Z.of_N (Byte.to_N b) mod 4 =? 1).
    { unfold bind at 1, ret at 1.
      rewrite (try_pop_ip_as_try_consume 16), Hpop_ip. by apply IH. }
    destruct (Z.of_N (Byte.to_N b) mod 4 =? 2).
    { unfold bind at 1, ret at 1. rewrite Hpop. by apply IH. }
    rewrite (emplace_as_try_push 16 id).
    destruct (Hpush (id (static_cast_uint32_t i))) as (buffer1 & -> & Hb1).
    by apply IH.
Qed.

(** X8 - the fuzz target cannot fault.  Whatever bytes it is given and
    whatever the uninitialised [out] holds, [LLVMFuzzerTestOneInput] run on a
    proper state of its static buffer performs no undefined access, returns
    0 and leaves the buffer in a proper state for the next call. *)
Theorem fuzz_target_safe (out : Z) (data : list byte)
    (buffer : @RingBuffer Z) (log : list event) :
  valid 16 buffer ->
  exists buffer' log',
    LLVMFuzzerTestOneInput out data buffer log = Ok (0, buffer', log') /\
    valid 16 buffer'.
Proof.
  intros Hb.
  destruct (fuzz_loop_valid out data 0 buffer log Hb)
    as (buffer' & log' & Hloop & Hb').
  exists buffer', log'. split; [|done].
  unfold LLVMFuzzerTestOneInput, bind, ret. by rewrite Hloop.
Qed.

(** *** The claims at [Capacity = 4] *)

Lemma fifo_order_witness :
  (Z.land 4 (4 - 1) = 0 /\ 1 < 4 /\ 4 < 2 ^ 64) /\
  exists rs rb' log',
    run 4 id wrapping_ops (RingBuffer_ctor 4) [] = Ok (rs, rb', log') /\
    (forall (k : nat) (v : Z),
        pops rs !! k = Some v -> pushes id wrapping_ops rs !! k = Some v) /\
    (within_capacity 4 wrapping_ops 0 = true ->
     pushes id wrapping_ops rs = supplied id wrapping_ops).
Proof.
  split; [repeat split|].
  apply (fifo_order 4 id); [reflexivity|lia|lia].
Defined.

Lemma capacity_limit_witness :
  (Z.land 4 (4 - 1) = 0 /\ 1 < 4 /\ 4 < 2 ^ 64 /\
   Z.of_nat (length [1; 2; 3]) = 4 - 1) /\
  exists rb : @RingBuffer Z,
    run 4 id (map Push [1; 2; 3]) (RingBuffer_ctor 4) [] =
      Ok (map (fun _ => Pushed true) [1; 2; 3], rb, []) /\
    contents 4 rb = [1; 2; 3] /\
    try_push 4 4 rb [] = Ok (false, rb, []).
Proof.
  split; [repeat split|].
  apply (capacity_limit 4 id); [reflexivity|lia|lia|reflexivity].
Defined.

Lemma filled_valid : valid 4 filled.
Proof.
  exists [20; 30; 40], [Some 30; Some 40; None; Some 20].
  repeat split; try done.
  intros i Hi.
  assert (i = 0 \/ i = 1 \/ i = 2 \/ i = 3) as [->|[->|[->| ->]]] by lia;
    reflexivity.
Qed.

Lemma drained_valid : valid 4 drained.
Proof.
  exists [], [None; None; None; None].
  repeat split; try done.
  intros i Hi. rewrite lookup_nil.
  assert (i = 0 \/ i = 1 \/ i = 2 \/ i = 3) as [->|[->|[->| ->]]] by lia;
    reflexivity.
Qed.

Lemma operations_total_witness :
  (Z.land 4 (4 - 1) = 0 /\ 1 < 4 /\ 4 < 2 ^ 64 /\
   (valid 4 filled \/ filled = moved_from) /\
   (valid 4 drained \/ drained = moved_from) /\
   (valid 4 (moved_from : @RingBuffer Z) \/
    (moved_from : @RingBuffer Z) = moved_from)) /\
  try_push 4 7 filled [] = Ok (false, filled, []) /\
  emplace 4 id 7 filled [] = Ok (false, filled, []) /\
  try_pop 4 drained [] = Ok (None, drained, []) /\
  try_pop_ip 4 0 drained [] = Ok (false, 0, drained, []) /\
  try_consume 4 (fun (_ : Z) (u : unit) => u) tt drained [] =
    Ok (false, tt, drained, []) /\
  try_pop 4 (moved_from : @RingBuffer Z) [] = Ok (None, moved_from, []).
Proof.
  pose proof (operations_total 4 id eq_refl ltac:(lia) ltac:(lia)
                filled 7 7 0 (fun (_ : Z) (u : unit) => u) tt []
                (or_introl filled_valid)) as (Hfull & _).
  destruct (Hfull filled_valid)
    as ((ok1 & rb1 & Hpush & [_ Hok1] & Hsame1) &
        (ok2 & rb2 & Hemplace & [_ Hok2] & Hsame2)).
  pose proof (operations_total 4 id eq_refl ltac:(lia) ltac:(lia)
                drained 7 7 0 (fun (_ : Z) (u : unit) => u) tt []
                (or_introl drained_valid))
    as (_ & (res & rb3 & log3 & Hpop & [_ Hres] & Hsame3) &
        (ok4 & out4 & rb4 & log4 & Hip & [_ Hok4] & Hsame4) &
        (ok5 & env5 & rb5 & log5 & Hconsume & [_ Hok5] & Hsame5)).
  pose proof (operations_total 4 id eq_refl ltac:(lia) ltac:(lia)
                (moved_from : @RingBuffer Z) 7 7 0
                (fun (_ : Z) (u : unit) => u) tt []
                (or_intror eq_refl))
    as (_ & (res6 & rb6 & log6 & Hpop6 & [_ Hres6] & Hsame6) & _).
  specialize (Hok1 eq_refl). specialize (Hok2 eq_refl).
  specialize (Hres eq_refl). specialize (Hok4 eq_refl).
  specialize (Hok5 eq_refl). specialize (Hres6 eq_refl).
  subst ok1 ok2 res ok4 ok5 res6.
  rewrite (Hsame1 eq_refl) in Hpush. rewrite (Hsame2 eq_refl) in Hemplace.
  destruct (Hsame3 eq_refl) as [-> ->].
  destruct (Hsame4 eq_refl) as (-> & -> & ->).
  destruct (Hsame5 eq_refl) as (-> & -> & ->).
  destruct (Hsame6 eq_refl) as [-> ->].
  split; [repeat split; [left; apply filled_valid|left; apply drained_valid
                        |by right]|].
  repeat split; assumption.
Defined.

(** C3, as stated, fails: both moves leave their source without storage,
    and on such a buffer, which is not full, [try_push] and [emplace] return
    neither [true] nor [false] but dereference the null [_storage]. *)
Lemma moved_from_push_not_total :
  is_full 4 (RingBuffer_move_ctor (RingBuffer_ctor 4 : @RingBuffer Z)).2
    = false /\
  try_push 4 7 (RingBuffer_move_ctor (RingBuffer_ctor 4)).2 [] =
    Undefined NullStorage /\
  emplace 4 id 7 (RingBuffer_move_ctor (RingBuffer_ctor 4)).2 [] =
    Undefined NullStorage.
Proof. repeat split. Qed.

Lemma empty_full_exclusive_witness :
  (Z.land 4 (4 - 1) = 0 /\ 1 < 4 /\ 4 < 2 ^ 64 /\ reachable 4 id wrapped) /\
  ~ (is_empty wrapped = true /\ is_full 4 wrapped = true).
Proof.
  split; [repeat split; apply wrapped_reachable|].
  apply (empty_full_exclusive 4 id); [reflexivity|lia|lia|].
  apply wrapped_reachable.
Defined.

Lemma cursors_in_bounds_witness :
  (Z.land 4 (4 - 1) = 0 /\ 1 < 4 /\ 4 < 2 ^ 64 /\ reachable 4 id wrapped) /\
  0 <= _head wrapped < 4 /\
  0 <= _tail wrapped < 4 /\
  (exists slots,
      _storage wrapped = Some slots /\ Z.of_nat (length slots) = 4) /\
  (forall log,
      get_ptr (_head wrapped) wrapped log = Ok (_head wrapped, log) /\
      get_ptr (_tail wrapped) wrapped log = Ok (_tail wrapped, log)).
Proof.
  split; [repeat split; apply wrapped_reachable|].
  apply (cursors_in_bounds 4 id); [reflexivity|lia|lia|].
  apply wrapped_reachable.
Defined.

Lemma dtor_destroys_each_once_witness :
  (Z.land 4 (4 - 1) = 0 /\ 1 < 4 /\ 4 < 2 ^ 64 /\ valid 4 wrapped /\
   (Z.to_nat (count 4 wrapped) < 3)%nat) /\
  exists rb',
    RingBuffer_dtor 4 3 wrapped [] = Ok (rb', [SlotDtor 3 20; SlotDtor 0 30]) /\
    Z.of_nat (length [SlotDtor 3 20; SlotDtor 0 30]) = count 4 wrapped /\
    NoDup (slot_dtors [SlotDtor 3 20; SlotDtor 0 30]).*1 /\
    (forall i, slot_at rb' i = None).
Proof.
  assert (Hfuel : (Z.to_nat (count 4 wrapped) < 3)%nat) by (vm_compute; lia).
  split; [repeat split; [apply wrapped_valid|exact Hfuel]|].
  apply (dtor_destroys_each_once 4 eq_refl ltac:(lia) ltac:(lia)
           wrapped 3%nat [] wrapped_valid Hfuel).
Defined.

Lemma consumers_equivalent_witness :
  (Z.land 4 (4 - 1) = 0 /\ 1 < 4 /\ 4 < 2 ^ 64 /\ valid 4 wrapped) /\
  (exists log'',
      try_pop_ip 4 0 wrapped [] =
        Ok (true, 20,
            {| _head := 1; _tail := 0;
               _storage := Some [Some 30; None; None; None] |}, log'') /\
      try_consume 4 (fun v seen => seen ++ [v]) [] wrapped [] =
        Ok (true, [20],
            {| _head := 1; _tail := 0;
               _storage := Some [Some 30; None; None; None] |}, log'') /\
      slot_dtors log'' = slot_dtors [SlotDtor 3 20; TempDtor 20]) /\
  exists rb' log',
    try_pop 4 wrapped [] = Ok (head (contents 4 wrapped), rb', log').
Proof.
  split; [repeat split; apply wrapped_valid|].
  pose proof (consumers_equivalent 4 eq_refl ltac:(lia) ltac:(lia)
                wrapped 0 (fun v seen => seen ++ [v]) [] [])
    as [Hsame Hfront].
  split; [exact Hsame|exact (Hfront wrapped_valid)].
Defined.

Lemma frame_effects_witness :
  (Z.land 4 (4 - 1) = 0 /\ 1 < 4 /\ 4 < 2 ^ 64 /\ valid 4 wrapped /\
   (moved_from : @RingBuffer Z) = moved_from) /\
  (exists ok rb' log',
      try_push 4 7 wrapped [] = Ok (ok, rb', log') /\
      _tail rb' = _tail wrapped /\
      forall i, occupied 4 wrapped i -> slot_at rb' i = slot_at wrapped i) /\
  (exists result rb' log',
      try_pop 4 wrapped [] = Ok (result, rb', log') /\
      _head rb' = _head wrapped /\
      forall i, i <> _tail wrapped -> slot_at rb' i = slot_at wrapped i) /\
  try_pop 4 (moved_from : @RingBuffer Z) [] = Ok (None, moved_from, []) /\
  try_pop_ip 4 0 (moved_from : @RingBuffer Z) [] =
    Ok (false, 0, moved_from, []).
Proof.
  split; [repeat split; apply wrapped_valid|].
  pose proof (frame_effects 4 id eq_refl ltac:(lia) ltac:(lia)
                wrapped 7 7 0 (fun (_ : Z) (u : unit) => u) tt [])
    as (Hpush & _ & Hpop & _ & _ & Hreturn & _).
  destruct (Hreturn wrapped_valid)
    as ((ok1 & rb1 & log1 & Hp1) & _ & (res & rb3 & log3 & Hp3) & _).
  pose proof (frame_effects 4 id eq_refl ltac:(lia) ltac:(lia)
                (moved_from : @RingBuffer Z) 7 7 0
                (fun (_ : Z) (u : unit) => u) tt [])
    as (_ & _ & _ & _ & _ & _ & Hmoved).
  destruct (Hmoved eq_refl) as (Hm1 & Hm2 & _).
  split; [exists ok1, rb1, log1; split; [exact Hp1|exact (Hpush _ _ _ Hp1)]|].
  split; [exists res, rb3, log3; split; [exact Hp3|exact (Hpop _ _ _ Hp3)]|].
  split; assumption.
Defined.

Lemma move_transfers_elements_witness :
  (Z.land 4 (4 - 1) = 0 /\ 1 < 4 /\ 4 < 2 ^ 64 /\
   valid 4 (RingBuffer_ctor 4 : @RingBuffer Z) /\ 1%nat <> 0%nat /\
   (Z.to_nat (count 4 (RingBuffer_ctor 4 : @RingBuffer Z)) < 1)%nat) /\
  RingBuffer_move_ctor wrapped = (wrapped, moved_from) /\
  (exists log',
      operator_assign 4 1 1 0 (RingBuffer_ctor 4) wrapped [] =
        Ok (wrapped, moved_from, log')).
Proof.
  assert (Hv : valid 4 (RingBuffer_ctor 4 : @RingBuffer Z))
    by (exists []; apply holds_ctor; lia).
  assert (Hfuel : (Z.to_nat (count 4 (RingBuffer_ctor 4 : @RingBuffer Z)) < 1)%nat)
    by (vm_compute; lia).
  split; [repeat split; [exact Hv|lia|exact Hfuel]|].
  pose proof (move_transfers_elements 4 eq_refl ltac:(lia) ltac:(lia)
                wrapped (RingBuffer_ctor 4) 0%nat 1%nat 1%nat 0
                (fun (_ : Z) (u : unit) => u) tt [] Hv ltac:(lia) Hfuel)
    as (Hctor & Hassign & _).
  split; assumption.
Defined.

(** C6, as stated, fails: after a move the source has no storage, so a push
    onto it dereferences the null [_storage], where the same push onto a new
    buffer succeeds. *)
Lemma moved_from_push_not_fresh :
  try_push 4 7 (RingBuffer_move_ctor (RingBuffer_ctor 4)).2 [] =
    Undefined NullStorage /\
  try_push 4 7 (RingBuffer_ctor 4) [] =
    Ok (true,
        {| _head := 1; _tail := 0;
           _storage := Some [Some 7; None; None; None] |}, []).
Proof. split; reflexivity. Qed.

(** C5 - the header has no combined query.  With [is_empty()] and
    [is_full()] as the only queries, the two flags come from two pairs of
    loads, and a push between them makes both answers [true]
    ([RingBuffer<int, 2>]: empty when new, full after one push). *)
Theorem separate_queries_tear :
  is_empty (RingBuffer_ctor 2 : @RingBuffer Z) = true /\
  exists rb',
    try_push 2 7 (RingBuffer_ctor 2) [] = Ok (true, rb', []) /\
    is_full 2 rb' = true.
Proof.
  split; [reflexivity|].
  exists {| _head := 1; _tail := 0; _storage := Some [Some 7; None] |}.
  split; reflexivity.
Qed.

(** *** The further properties at concrete inputs *)

Lemma try_push_appends_witness :
  (Z.land 4 (4 - 1) = 0 /\ 1 < 4 /\ 4 < 2 ^ 64 /\ valid 4 wrapped /\
   is_full 4 wrapped = false) /\
  exists rb',
    try_push 4 7 wrapped [] = Ok (true, rb', []) /\ valid 4 rb' /\
    contents 4 rb' = contents 4 wrapped ++ [7] /\
    _head rb' = (_head wrapped + 1) mod 4 /\ _tail rb' = _tail wrapped /\
    slot_at rb' (_head wrapped) = Some 7.
Proof.
  split; [repeat split; apply wrapped_valid|].
  exact (proj1 (try_push_appends 4 id eq_refl ltac:(lia) ltac:(lia)
                  wrapped 7 7 [] wrapped_valid eq_refl)).
Defined.


Lemma queries_count_elements_witness :
  (Z.land 4 (4 - 1) = 0 /\ 1 < 4 /\ 4 < 2 ^ 64 /\ valid 4 wrapped) /\
  Z.of_nat (length (contents 4 wrapped)) = count 4 wrapped /\
  count 4 wrapped <= 4 - 1 /\
  (is_empty wrapped = true <-> contents 4 wrapped = []) /\
  (is_full 4 wrapped = true <-> Z.of_nat (length (contents 4 wrapped)) = 4 - 1).
Proof.
  split; [repeat split; apply wrapped_valid|].
  apply (queries_count_elements 4 eq_refl ltac:(lia) ltac:(lia)
           wrapped wrapped_valid).
Defined.

Lemma live_objects_are_occupied_range_witness :
  (Z.land 4 (4 - 1) = 0 /\ 1 < 4 /\ 4 < 2 ^ 64 /\ reachable 4 id wrapped) /\
  (forall i, 0 <= i < 4 -> is_Some (slot_at wrapped i) <-> occupied 4 wrapped i) /\
  slot_at wrapped (_head wrapped) = None.
Proof.
  split; [repeat split; apply wrapped_reachable|].
  apply (live_objects_are_occupied_range 4 id eq_refl ltac:(lia) ltac:(lia)
           wrapped wrapped_reachable).
Defined.

Lemma pushed_elements_destroyed_once_witness :
  (Z.land 4 (4 - 1) = 0 /\ 1 < 4 /\ 4 < 2 ^ 64) /\
  exists rs rb log,
    run 4 id wrapping_ops (RingBuffer_ctor 4) [] = Ok (rs, rb, log) /\
    destroyed log = pops rs /\
    ((Z.to_nat (count 4 rb) < 3)%nat ->
     exists rb' log',
       RingBuffer_dtor 4 3 rb log = Ok (rb', log') /\
       destroyed log' = pushes id wrapping_ops rs /\
       forall i, slot_at rb' i = None).
Proof.
  split; [repeat split|].
  apply (pushed_elements_destroyed_once 4 id eq_refl ltac:(lia) ltac:(lia)
           wrapping_ops 3%nat).
Defined.

Lemma move_assign_destroys_target_witness :
  (Z.land 4 (4 - 1) = 0 /\ 1 < 4 /\ 4 < 2 ^ 64 /\ valid 4 wrapped /\
   1%nat <> 0%nat /\ (Z.to_nat (count 4 wrapped) < 3)%nat) /\
  exists log',
    operator_assign 4 3 1 0 wrapped drained [] = Ok (drained, moved_from, log') /\
    slot_dtors log' =
      slot_dtors [] ++
      imap (fun k v => ((_tail wrapped + Z.of_nat k) mod 4, v))
           (contents 4 wrapped) /\
    destroyed log' = destroyed [] ++ contents 4 wrapped.
Proof.
  assert (Hfuel : (Z.to_nat (count 4 wrapped) < 3)%nat) by (vm_compute; lia).
  split; [repeat split; [apply wrapped_valid|lia|exact Hfuel]|].
  apply (move_assign_destroys_target 4 eq_refl ltac:(lia) ltac:(lia)
           drained wrapped 0%nat 1%nat 3%nat [] wrapped_valid ltac:(lia) Hfuel).
Defined.

Lemma move_round_trip_witness :
  0%nat <> 1%nat /\
  operator_assign 4 1 0 1
    (RingBuffer_move_ctor wrapped).2 (RingBuffer_move_ctor wrapped).1 [] =
  Ok (wrapped, moved_from, []).
Proof.
  split; [lia|].
  apply (move_round_trip 4 wrapped 0%nat 1%nat 0%nat []). lia.
Defined.

Lemma fuzz_target_safe_witness :
  valid 16 (RingBuffer_ctor 16 : @RingBuffer Z) /\
  exists buffer' log',
    LLVMFuzzerTestOneInput 0 [x00; x03; x01; x02; xff; x06]
      (RingBuffer_ctor 16) [] = Ok (0, buffer', log') /\
    valid 16 buffer'.
Proof.
  assert (Hv : valid 16 (RingBuffer_ctor 16 : @RingBuffer Z))
    by (exists []; apply holds_ctor; lia).
  split; [exact Hv|].
  apply (fuzz_target_safe 0 [x00; x03; x01; x02; xff; x06]
           (RingBuffer_ctor 16) [] Hv).
Defined.

Lemma fill_drain_rounds_complete_witness :
  (Z.land CAPACITY (CAPACITY - 1) = 0 /\ 1 < CAPACITY /\ CAPACITY < 2 ^ 64 /\
   valid CAPACITY (RingBuffer_ctor CAPACITY : @RingBuffer Z) /\
   is_empty (RingBuffer_ctor CAPACITY : @RingBuffer Z) = true) /\
  exists buffer log,
    benchmark_main [] = Ok (0, buffer, log) /\
    valid CAPACITY buffer /\ is_empty buffer = true /\
    destroyed log =
      concat (replicate (Z.to_nat ITERATIONS)
                (static_cast_int <$> seqZ 0 (CAPACITY - 1))).
Proof.
  assert (Hgt : 1 < CAPACITY) by (unfold CAPACITY; lia).
  assert (Hsz : CAPACITY < 2 ^ 64) by (unfold CAPACITY; lia).
  assert (Hv : valid CAPACITY (RingBuffer_ctor CAPACITY : @RingBuffer Z))
    by (exists []; apply holds_ctor; exact Hgt).
  split; [repeat split; exact Hv|].
  destruct (fill_drain_rounds_complete CAPACITY eq_refl Hgt Hsz
              static_cast_int (Z.to_nat ITERATIONS) (RingBuffer_ctor CAPACITY)
              [] Hv eq_refl)
    as (buffer & log & Hrun & Hb & Hempty & Hlog & _).
  exists buffer, log.
  split; [|split; [exact Hb|split; [exact Hempty|]]];
    [|exact (eq_trans Hlog (app_nil_l _))].
  unfold benchmark_main, bind, ret. rewrite Hrun. reflexivity.
Defined.

Lemma push_pop_loop_passes_witness :
  (Z.land 64 (64 - 1) = 0 /\ 1 < 64 /\ 64 < 2 ^ 64 /\
   (forall x, Z.eqb x x = true) /\
   valid 64 (RingBuffer_ctor 64 : @RingBuffer Z) /\
   is_empty (RingBuffer_ctor 64 : @RingBuffer Z) = true) /\
  exists buffer log,
    stress_push_pop_many [] = Ok (true, buffer, log) /\
    valid 64 buffer /\ is_empty buffer = true /\
    destroyed log = destroyed [] ++ (id <$> seqZ 0 (Z.of_nat 1000)) /\
    _tail buffer = (_tail (RingBuffer_ctor 64 : @RingBuffer Z) + Z.of_nat 1000) mod 64.
Proof.
  assert (Hv : valid 64 (RingBuffer_ctor 64 : @RingBuffer Z))
    by (exists []; apply holds_ctor; lia).
  split; [repeat split; [apply Z.eqb_refl|exact Hv]|].
  apply (push_pop_loop_passes 64 eq_refl ltac:(lia) ltac:(lia)
           id Z.eqb 1000%nat 0 (RingBuffer_ctor 64) [] Z.eqb_refl Hv eq_refl).
Defined.


Lemma push_loop_drops_overflow_witness :
  (Z.land 4 (4 - 1) = 0 /\ 1 < 4 /\ 4 < 2 ^ 64 /\ valid 4 wrapped) /\
  exists rb',
    push_loop 4 id 3 5 wrapped [] = Ok (rb', []) /\ valid 4 rb' /\
    contents 4 rb' =
      contents 4 wrapped ++ take (Z.to_nat (4 - 1) - length (contents 4 wrapped))
                              (id <$> seqZ 5 (Z.of_nat 3)).
Proof.
  split; [repeat split; apply wrapped_valid|].
  apply (push_loop_drops_overflow 4 eq_refl ltac:(lia) ltac:(lia)
           id 3%nat 5 wrapped [] wrapped_valid).
Defined.

Lemma pop_loop_stops_at_empty_witness :
  (Z.land 4 (4 - 1) = 0 /\ 1 < 4 /\ 4 < 2 ^ 64 /\ valid 4 wrapped) /\
  exists rb' log',
    pop_loop 4 3 wrapped [] = Ok (rb', log') /\ valid 4 rb' /\
    contents 4 rb' = drop 3 (contents 4 wrapped) /\
    destroyed log' = destroyed [] ++ take 3 (contents 4 wrapped).
Proof.
  split; [repeat split; apply wrapped_valid|].
  apply (pop_loop_stops_at_empty 4 eq_refl ltac:(lia) ltac:(lia)
           3%nat wrapped [] wrapped_valid).
Defined.

End bring.
